(** * Settings client: layered configuration resolution

    A shallow embedding of [lib/settings.ts]: the source reader
    [readConfigFile], the key normalizer [replaceResinKeys], the memoized
    merger [getSettings] and the two accessors [get] and [getAll].

    A JavaScript object is an association list, in property enumeration
    order and with pairwise distinct keys. A thrown exception is the left
    summand of a result. The state of the process (the object store, the
    two variables captured by [_.once], a log of the file reads) is
    threaded explicitly through every computation. *)

From Stdlib Require Import String Ascii List ZArith Bool Lia Arith.
Import ListNotations.
Open Scope list_scope.
Open Scope string_scope.

Set Warnings "-register-all".

(** ** Strings *)

Module Str.

(** [s.substring(n)]: the string without its first [n] characters. *)
Fixpoint drop (n : nat) (s : string) : string :=
  match n, s with
  | O, _ => s
  | S n', String _ s' => drop n' s'
  | S _, EmptyString => EmptyString
  end.

(** [s.includes(pat)]: [pat] occurs at some position of [s]. *)
Fixpoint includes (pat s : string) : bool :=
  prefix pat s ||
  match s with
  | EmptyString => false
  | String _ s' => includes pat s'
  end.

(** [s.replace(pat, rep)] for a string pattern [pat] and a replacement
    free of [$]: only the first occurrence of [pat] is replaced. (Strings
    are sequences of bytes here; searching and replacing an ASCII pattern
    gives the same result on the UTF-8 bytes as on the code units.) *)
Fixpoint replace (pat rep s : string) : string :=
  if prefix pat s then rep ++ drop (String.length pat) s
  else match s with
       | EmptyString => s
       | String c s' => String c (replace pat rep s')
       end.

(** [x] occurs in [s], as a proposition. *)
Definition occurs (x s : string) : Prop :=
  exists pre post, s = pre ++ x ++ post.

End Str.

(** ** Values and objects *)

(** What a property can hold. Numbers are kept as integers; nothing below
    computes with them. *)
Inductive value : Type :=
| VUndefined
| VNull
| VBool (b : bool)
| VNum (z : Z)
| VStr (s : string)
| VArr (items : list value)
| VObj (props : list (string * value)).

(** An object: its own enumerable properties, in enumeration order. *)
Definition object : Type := list (string * value).

Definition keys (o : object) : list string := map fst o.

(** The own property [k] of [o], if there is one. *)
Fixpoint obj_get (k : string) (o : object) : option value :=
  match o with
  | [] => None
  | (k', v) :: o' => if String.eqb k' k then Some v else obj_get k o'
  end.

(** [o[k] = v]: an existing property keeps its place, a new one is added
    last. (An engine enumerates array-index keys first; only the order of
    the keys of a parsed file matters below, and that order is given.) *)
Fixpoint obj_set (k : string) (v : value) (o : object) : object :=
  match o with
  | [] => [(k, v)]
  | (k', v') :: o' =>
      if String.eqb k' k then (k, v) :: o' else (k', v') :: obj_set k v o'
  end.

(** Keys are pairwise distinct, as in every JavaScript object. *)
Fixpoint distinct (l : list string) : bool :=
  match l with
  | [] => true
  | k :: l' => negb (existsb (String.eqb k) l') && distinct l'
  end.

Definition well_formed (o : object) : bool := distinct (keys o).

(** ** Key normalizer *)

(** [_.mapKeys(o, iteratee)]: a new object, filled property by property in
    the enumeration order of [o] by [result[iteratee(value, key)] = value]. *)
Definition mapKeys (iteratee : value -> string -> string) (o : object) : object :=
  fold_left (fun result '(key, v) => obj_set (iteratee v key) v result) o [].

(** A property under the key the iteratee gives it. *)
Definition rename (iteratee : value -> string -> string) (p : string * value)
  : string * value :=
  (iteratee (snd p) (fst p), snd p).

Definition normalize_key (key : string) : string :=
  Str.replace "resin" "balena" key.

Definition replaceResinKeys (parsedConfig : object) : object :=
  mapKeys (fun _value key => normalize_key key) parsedConfig.

(** ** Merging and evaluation *)

(** Modelled from the spec: [utils.mergeObjects] is not part of the sources
    at hand. Its contract: sources are merged left to right into the first
    argument; a scalar or an array of a later source overwrites what is
    there; two object values are merged recursively, key by key (nested
    mappings are copied, never shared). The value that [new] leaves under
    a key that holds [old]: *)
Fixpoint merge_value (old : option value) (new : value) {struct new} : value :=
  match new, old with
  | VObj src, Some (VObj dst) =>
      VObj ((fix go (src : list (string * value)) (acc : object) : object :=
               match src with
               | [] => acc
               | (k, v) :: src' =>
                   go src' (obj_set k (merge_value (obj_get k acc) v) acc)
               end) src dst)
  | _, _ => new
  end.

(** One source merged into the accumulator. *)
Definition merge_into (target source : object) : object :=
  fold_left
    (fun acc '(k, v) => obj_set k (merge_value (obj_get k acc) v) acc)
    source target.

(** Modelled from the spec: [utils.evaluateSetting] is not part of the
    sources at hand. Its contract: look the name up; a stored string that
    names another setting is resolved through that setting, one level deep;
    a name that is not present yields [undefined]. *)
Definition evaluateSetting (settings : object) (name : string) : value :=
  match obj_get name settings with
  | None => VUndefined
  | Some (VStr alias) =>
      match obj_get alias settings with
      | Some target => target
      | None => VStr alias
      end
  | Some v => v
  end.

(** ** The world outside the module *)

(** A thrown [Error]: its [code] (set by the file system, [undefined] on a
    plain [new Error]) and its [message]. *)
Record js_error : Type := Error { code : option string; message : string }.

(** What [fs.readFileSync] finds at a path. *)
Inductive file : Type :=
| Missing
| Unreadable (e : js_error)
| Regular (contents : string).

(** [config.paths]. *)
Record config_paths : Type := Paths {
  userLegacy : string;
  user : string;
  projectLegacy : string;
  project : string
}.

(** The collaborators of [settings.ts] whose code is elsewhere: the file
    system, [yaml.parse] (it returns a mapping or throws), [environment.parse]
    with [process.env], the [defaults] module and [config.paths]. *)
Record world : Type := World {
  fs : string -> file;
  yaml_parse : string -> js_error + object;
  environment_parse : list (string * string) -> object;
  process_env : list (string * string);
  defaults : object;
  paths : config_paths
}.

(** ** Process state *)

(** A reference into the object store. *)
Definition ref : Type := nat.

(** [heap]: the top-level objects alive in the process, a reference being
    an index; nested values are immutable trees. [once_n] and [once_result]
    are the two captured variables of lodash's [_.once], which is
    [before(2, func)]. [reads] logs every call of [fs.readFileSync] and
    [runs] counts the evaluations of the merge; both only observe. *)
Record state : Type := State {
  heap : list object;
  once_n : Z;
  once_result : option ref;
  reads : list string;
  runs : nat
}.

(** The [defaults] module object is the first object of the store. *)
Definition defaults_ref : ref := 0.

Definition initial_state (w : world) : state :=
  {| heap := [defaults w]; once_n := 2; once_result := None;
     reads := []; runs := 0 |}.

(** Computations that read and write the state and may throw. *)
Definition M (A : Type) : Type := state -> (js_error + A) * state.

Definition ret {A} (a : A) : M A := fun st => (inr a, st).

Definition throw {A} (e : js_error) : M A := fun st => (inl e, st).

Definition bind {A B} (m : M A) (k : A -> M B) : M B :=
  fun st =>
    match m st with
    | (inl e, st') => (inl e, st')
    | (inr a, st') => k a st'
    end.

(** [try { m } catch (error) { handler }] *)
Definition try_catch {A} (m : M A) (handler : js_error -> M A) : M A :=
  fun st =>
    match m st with
    | (inl e, st') => handler e st'
    | (inr a, st') => (inr a, st')
    end.

Declare Scope monad_scope.
Delimit Scope monad_scope with monad.
Notation "x <- m ;; k" := (bind m (fun x => k))
  (at level 100, m at next level, right associativity) : monad_scope.
Notation "m ;; k" := (bind m (fun _ => k))
  (at level 100, right associativity) : monad_scope.
Open Scope monad_scope.

(** State changes, field by field. *)
Definition with_heap (h : list object) (st : state) : state :=
  {| heap := h; once_n := once_n st; once_result := once_result st;
     reads := reads st; runs := runs st |}.

Definition with_n (n : Z) (st : state) : state :=
  {| heap := heap st; once_n := n; once_result := once_result st;
     reads := reads st; runs := runs st |}.

Definition with_result (r : option ref) (st : state) : state :=
  {| heap := heap st; once_n := once_n st; once_result := r;
     reads := reads st; runs := runs st |}.

Definition with_reads (l : list string) (st : state) : state :=
  {| heap := heap st; once_n := once_n st; once_result := once_result st;
     reads := l; runs := runs st |}.

Definition with_runs (k : nat) (st : state) : state :=
  {| heap := heap st; once_n := once_n st; once_result := once_result st;
     reads := reads st; runs := k |}.

(** A new object enters the store. *)
Definition push (o : object) (st : state) : state :=
  with_heap (heap st ++ [o])%list st.

Definition alloc (o : object) : M ref :=
  fun st => (inr (List.length (heap st)), push o st).

Definition lookup (r : ref) (st : state) : object := nth r (heap st) [].

Definition load (r : ref) : M object := fun st => (inr (lookup r st), st).

Fixpoint update (r : ref) (f : object -> object) (h : list object) : list object :=
  match h, r with
  | [], _ => []
  | o :: h', O => f o :: h'
  | o :: h', S r' => o :: update r' f h'
  end.

(** The object behind [r] is changed in place. *)
Definition modify (r : ref) (f : object -> object) : M unit :=
  fun st => (inr tt, with_heap (update r f (heap st)) st).

Definition logged (path : string) (st : state) : state :=
  with_reads (reads st ++ [path])%list st.

Definition log_read (path : string) : M unit :=
  fun st => (inr tt, logged path st).

Definition count_run : M unit :=
  fun st => (inr tt, with_runs (S (runs st)) st).

(** ** The module *)

Section Program.

Variable w : world.

Definition enoent (path : string) : js_error :=
  {| code := Some "ENOENT";
     message := "ENOENT: no such file or directory, open '" ++ path ++ "'" |}.

(** [fs.readFileSync(file, { encoding: 'utf8' })] *)
Definition readFileSync (path : string) : M string :=
  log_read path ;;
  match fs w path with
  | Missing => throw (enoent path)
  | Unreadable e => throw e
  | Regular contents => ret contents
  end.

Definition is_enoent (error : js_error) : bool :=
  match code error with
  | Some c => String.eqb c "ENOENT"
  | None => false
  end.

Definition parse_error (file : string) (error : js_error) : js_error :=
  {| code := None;
     message := "Error parsing config file " ++ file ++ ": " ++ message error |}.

(** [yaml.parse(fileContents)], the parsed mapping being a new object. *)
Definition yaml_parse_call (fileContents : string) : M ref :=
  match yaml_parse w fileContents with
  | inl error => throw error
  | inr parsed => alloc parsed
  end.

(** [readConfigFile]: [None] stands for the [return {}] inside the first
    [catch], which leaves the function before the second [try]. *)
Definition readConfigFile (file : string) : M ref :=
  fileContents <-
    try_catch
      (contents <- readFileSync file ;; ret (Some contents))
      (fun error => if is_enoent error then ret None else throw error) ;;
  match fileContents with
  | None => alloc []
  | Some fileContents =>
      try_catch
        (yaml_parse_call fileContents)
        (fun error => throw (parse_error file error))
  end.

(** [replaceResinKeys] on a reference: [_.mapKeys] returns a new object. *)
Definition replaceResinKeys_call (parsedConfig : ref) : M ref :=
  o <- load parsedConfig ;;
  alloc (replaceResinKeys o).

(** [environment.parse(process.env)] *)
Definition environment_parse_call : M ref :=
  alloc (environment_parse w (process_env w)).

(** Modelled from the spec: [utils.mergeObjects(target, ...sources)] is
    not part of the sources at hand. Every source in turn is merged into
    the object behind [target], which is returned; no source is written. *)
Fixpoint mergeObjects (target : ref) (sources : list ref) : M ref :=
  match sources with
  | [] => ret target
  | source :: sources' =>
      o <- load source ;;
      modify target (fun acc => merge_into acc o) ;;
      mergeObjects target sources'
  end.

(** The function handed to [_.once]; its arguments are evaluated left to
    right. *)
Definition computeSettings : M ref :=
  count_run ;;
  target <- alloc [] ;;
  userLegacyFile <- readConfigFile (userLegacy (paths w)) ;;
  userLegacyConfig <- replaceResinKeys_call userLegacyFile ;;
  userConfig <- readConfigFile (user (paths w)) ;;
  projectLegacyFile <- readConfigFile (projectLegacy (paths w)) ;;
  projectLegacyConfig <- replaceResinKeys_call projectLegacyFile ;;
  projectConfig <- readConfigFile (project (paths w)) ;;
  environmentConfig <- environment_parse_call ;;
  mergeObjects target
    [defaults_ref; userLegacyConfig; userConfig; projectLegacyConfig;
     projectConfig; environmentConfig].

Definition decrement_n : M Z :=
  fun st => (inr (once_n st - 1)%Z, with_n (once_n st - 1)%Z st).

Definition set_result (r : ref) : M unit :=
  fun st => (inr tt, with_result (Some r) st).

Definition get_result : M (option ref) := fun st => (inr (once_result st), st).

(** [getSettings = _.once(computeSettings)]. In lodash, [once(func)] is
    [before(2, func)], whose returned function is
    [if (--n > 0) result = func(); if (n <= 1) func = undefined; return result]:
    an exception of [func] leaves [result] undefined and [n] decremented. *)
Definition getSettings : M (option ref) :=
  n <- decrement_n ;;
  (if (0 <? n)%Z
   then (r <- computeSettings ;; set_result r)
   else ret tt) ;;
  get_result.

(** [get(name)]. When [getSettings] hands out [undefined] there is nothing
    to look up and the answer is taken to be [undefined]; no theorem about
    a claim rests on that answer. *)
Definition get (name : string) : M value :=
  settings <- getSettings ;;
  match settings with
  | None => ret VUndefined
  | Some r => o <- load r ;; ret (evaluateSetting o name)
  end.

(** [_.mapValues(o, iteratee)], the iteratee being a computation: a new
    object with the keys of [o], [result[key] = iteratee(value, key)]. *)
Fixpoint mapValues_loop (iteratee : value -> string -> M value)
    (o : object) (result : object) : M object :=
  match o with
  | [] => ret result
  | (key, v) :: o' =>
      v' <- iteratee v key ;;
      mapValues_loop iteratee o' (obj_set key v' result)
  end.

(** On [undefined], [_.mapValues] returns an empty object. *)
Definition mapValues (settings : option ref)
    (iteratee : value -> string -> M value) : M ref :=
  match settings with
  | None => alloc []
  | Some r =>
      o <- load r ;;
      result <- mapValues_loop iteratee o [] ;;
      alloc result
  end.

(** [getAll()] *)
Definition getAll : M ref :=
  settings <- getSettings ;;
  mapValues settings (fun _setting name => get name).

(** The two public operations, for sequences of calls. *)
Inductive call : Type :=
| Get (name : string)
| GetAll.

(** What a call gives back to its caller. *)
Inductive outcome : Type :=
| Thrown (e : js_error)
| Value (v : value)
| Mapping (r : ref).

Definition run_call (c : call) (st : state) : outcome * state :=
  match c with
  | Get name =>
      match get name st with
      | (inl e, st') => (Thrown e, st')
      | (inr v, st') => (Value v, st')
      end
  | GetAll =>
      match getAll st with
      | (inl e, st') => (Thrown e, st')
      | (inr r, st') => (Mapping r, st')
      end
  end.

Fixpoint run_calls (cs : list call) (st : state) : list outcome * state :=
  match cs with
  | [] => ([], st)
  | c :: cs' =>
      let (out, st') := run_call c st in
      let (outs, st'') := run_calls cs' st' in
      (out :: outs, st'')
  end.

End Program.

(** ** What the module computes, without the state *)

Section Resolution.

Variable w : world.

(** The outcome of reading one configuration file. *)
Definition read_source (path : string) : js_error + object :=
  match fs w path with
  | Missing => inr []
  | Unreadable e => if is_enoent e then inr [] else inl e
  | Regular contents =>
      match yaml_parse w contents with
      | inl error => inl (parse_error path error)
      | inr parsed => inr parsed
      end
  end.

(** The files in the order in which they are read. *)
Definition all_paths : list string :=
  [userLegacy (paths w); user (paths w);
   projectLegacy (paths w); project (paths w)].

(** The six mappings handed to the merge, lowest precedence first; the
    first file that fails decides the error. *)
Definition config_sources : js_error + list object :=
  match read_source (userLegacy (paths w)) with
  | inl e => inl e
  | inr userLegacyFile =>
  match read_source (user (paths w)) with
  | inl e => inl e
  | inr userConfig =>
  match read_source (projectLegacy (paths w)) with
  | inl e => inl e
  | inr projectLegacyFile =>
  match read_source (project (paths w)) with
  | inl e => inl e
  | inr projectConfig =>
      inr [defaults w; replaceResinKeys userLegacyFile; userConfig;
           replaceResinKeys projectLegacyFile; projectConfig;
           environment_parse w (process_env w)]
  end end end end.

(** How many files are read before the merge succeeds or fails. *)
Definition files_read : nat :=
  match read_source (userLegacy (paths w)) with
  | inl _ => 1
  | inr _ =>
  match read_source (user (paths w)) with
  | inl _ => 2
  | inr _ =>
  match read_source (projectLegacy (paths w)) with
  | inl _ => 3
  | inr _ => 4
  end end end.

End Resolution.

(** All sources merged into an empty object. *)
Definition merge_all (sources : list object) : object :=
  fold_left merge_into sources [].

(** The value of [key] in the last source that defines it. *)
Definition highest (key : string) (sources : list object) : option value :=
  fold_left
    (fun acc source =>
       match obj_get key source with
       | Some v => Some v
       | None => acc
       end)
    sources None.

(** The value that the sources leave under [key], one after another. *)
Definition merged (key : string) (sources : list object) (start : option value)
  : option value :=
  fold_left
    (fun acc source =>
       match obj_get key source with
       | Some v => Some (merge_value acc v)
       | None => acc
       end)
    sources start.

Definition is_object (v : value) : bool :=
  match v with
  | VObj _ => true
  | _ => false
  end.

(** Both the value that is there and the value that comes are nested
    mappings: the one case in which a merge does not simply overwrite. *)
Definition both_objects (old : option value) (new : value) : bool :=
  match old, new with
  | Some (VObj _), VObj _ => true
  | _, _ => false
  end.

(** What [getAll] builds from the settings [o]. *)
Definition evaluate_all (settings o result : object) : object :=
  fold_left
    (fun acc '(key, _) => obj_set key (evaluateSetting settings key) acc)
    o result.

(** ** States of a running process *)

(** The state in which the merge starts on the first call. *)
Definition started (w : world) : state := with_n 1 (initial_state w).

(** After the first call of [getSettings], whatever its outcome: the
    counter of [_.once] is used up, [files] have been read, the merge has
    run once, and [cache] is the reference kept by [_.once] together with
    the mapping behind it ([None]: the first call threw). *)
Definition settled (w : world) (files : list string)
    (cache : option (ref * object)) (st : state) : Prop :=
  (once_n st <= 1)%Z /\
  reads st = files /\
  runs st = 1 /\
  once_result st = option_map fst cache /\
  nth_error (heap st) defaults_ref = Some (defaults w) /\
  forall r settings, cache = Some (r, settings) ->
                     nth_error (heap st) r = Some settings.

(** What a call answers once the process is settled. *)
Definition answers (cache : option (ref * object)) (c : call)
    (out : outcome) (st : state) : Prop :=
  match c, out with
  | Get name, Value v =>
      v = match cache with
          | None => VUndefined
          | Some (_, settings) => evaluateSetting settings name
          end
  | GetAll, Mapping r =>
      nth_error (heap st) r =
      Some match cache with
           | None => []
           | Some (_, settings) => evaluate_all settings settings []
           end
  | _, _ => False
  end.

(** ** Sample worlds *)

Module Sample.

Definition home_legacy : string := "/home/user/.resinrc.yml".
Definition home_current : string := "/home/user/.balenarc.yml".
Definition cwd_legacy : string := "/work/resinrc.yml".
Definition cwd_current : string := "/work/balenarc.yml".

Definition sample_paths : config_paths :=
  {| userLegacy := home_legacy; user := home_current;
     projectLegacy := cwd_legacy; project := cwd_current |}.

(** A parser that knows five documents and rejects everything else. *)
Definition parse (contents : string) : js_error + object :=
  if String.eqb contents "resinDataDirectory: /legacy"
  then inr [("resinDataDirectory", VStr "/legacy")]
  else if String.eqb contents "balenaUrl: balena-staging.com"
  then inr [("balenaUrl", VStr "balena-staging.com")]
  else if String.eqb contents "proxy: {host: h}"
  then inr [("proxy", VObj [("host", VStr "h")])]
  else if String.eqb contents "proxy: {port: 8080}"
  then inr [("proxy", VObj [("port", VNum 8080)])]
  else if String.eqb contents "registryUrl: balenaUrl"
  then inr [("registryUrl", VStr "balenaUrl")]
  else inl {| code := None; message := "bad indentation of a mapping entry" |}.

Definition sample_defaults : object :=
  [("dataDirectory", VStr "/opt/default");
   ("balenaUrl", VStr "balena-cloud.com")].

Definition sample_env (_ : list (string * string)) : object :=
  [("dataDirectory", VStr "/opt/cache/balena")].

Definition world_of (files : string -> file) : world :=
  {| fs := files; yaml_parse := parse; environment_parse := sample_env;
     process_env := [("BALENARC_DATA_DIRECTORY", "/opt/cache/balena")];
     defaults := sample_defaults; paths := sample_paths |}.

(** A legacy user file and a current user file. *)
Definition layered : world :=
  world_of (fun path =>
    if String.eqb path home_legacy then Regular "resinDataDirectory: /legacy"
    else if String.eqb path home_current
    then Regular "balenaUrl: balena-staging.com"
    else Missing).

(** The user file and the project file both define [proxy], as mappings. *)
Definition nested : world :=
  world_of (fun path =>
    if String.eqb path home_current then Regular "proxy: {host: h}"
    else if String.eqb path cwd_current then Regular "proxy: {port: 8080}"
    else Missing).

(** The user file gives [balenaUrl], which the defaults define too, the
    name of another setting. *)
Definition redirected : world :=
  {| fs := fun path =>
             if String.eqb path home_current
             then Regular "balenaUrl: dataDirectory" else Missing;
     yaml_parse := fun contents =>
             if String.eqb contents "balenaUrl: dataDirectory"
             then inr [("balenaUrl", VStr "dataDirectory")]
             else inl {| code := None; message := "unexpected end of the stream" |};
     environment_parse := sample_env;
     process_env := [("BALENARC_DATA_DIRECTORY", "/opt/cache/balena")];
     defaults := sample_defaults; paths := sample_paths |}.

(** The user file does not parse. *)
Definition broken : world :=
  world_of (fun path =>
    if String.eqb path home_current then Regular "balenaUrl: [" else Missing).

(** The user file is there but may not be read. *)
Definition denied : world :=
  world_of (fun path =>
    if String.eqb path home_current
    then Unreadable
           {| code := Some "EACCES";
              message := "EACCES: permission denied, open '/home/user/.balenarc.yml'" |}
    else Missing).

(** No configuration file at all. *)
Definition bare : world := world_of (fun _ => Missing).

End Sample.

(** * Properties *)

(** ** Strings *)

Module StrFacts.
Import Str.

Lemma append_assoc (a b c : string) : (a ++ b) ++ c = a ++ (b ++ c).
Proof. induction a as [|ch a IH]; simpl; [reflexivity | now rewrite IH]. Qed.

Lemma append_nil_r (a : string) : a ++ "" = a.
Proof. induction a as [|ch a IH]; simpl; [reflexivity | now rewrite IH]. Qed.

Lemma prefix_split (p s : string) :
  prefix p s = true -> s = p ++ drop (String.length p) s.
Proof.
  revert s; induction p as [|c p IH]; intros s H; simpl.
  - now destruct s.
  - destruct s as [|d s]; simpl in H; [discriminate|].
    destruct (Ascii.ascii_dec c d) as [->|]; [|discriminate].
    simpl. f_equal. now apply IH.
Qed.

Lemma prefix_append (p s : string) : prefix p (p ++ s) = true.
Proof.
  induction p as [|c p IH]; simpl; [now destruct s|].
  destruct (Ascii.ascii_dec c c); [exact IH | congruence].
Qed.

Lemma includes_cons (pat : string) (c : ascii) (s : string) :
  includes pat (String c s) = prefix pat (String c s) || includes pat s.
Proof. reflexivity. Qed.

Lemma replace_cons (pat rep : string) (c : ascii) (s : string) :
  replace pat rep (String c s) =
  if prefix pat (String c s) then rep ++ drop (String.length pat) (String c s)
  else String c (replace pat rep s).
Proof. reflexivity. Qed.

Lemma prefix_empty (pat : string) :
  prefix pat "" = true -> pat = "".
Proof. now destruct pat. Qed.

Lemma includes_occurs (pat s : string) :
  includes pat s = true <-> occurs pat s.
Proof.
  split.
  - induction s as [|c s IH]; intros H.
    + unfold includes in H. rewrite orb_false_r in H.
      apply prefix_empty in H as ->. now exists "", "".
    + rewrite includes_cons in H. apply orb_true_iff in H as [H|H].
      * exists "", (drop (String.length pat) (String c s)).
        now apply prefix_split.
      * destruct (IH H) as (pre & post & ->).
        now exists (String c pre), post.
  - intros (pre & post & ->).
    induction pre as [|c pre IH].
    + cbn [append].
      assert (E : prefix pat (pat ++ post) = true) by apply prefix_append.
      destruct (pat ++ post) as [|d r].
      * unfold includes. now rewrite E.
      * rewrite includes_cons, E. reflexivity.
    + cbn [append]. rewrite includes_cons, IH. apply orb_true_r.
Qed.

Lemma replace_absent (pat rep s : string) :
  includes pat s = false -> replace pat rep s = s.
Proof.
  induction s as [|c s IH]; intros H.
  - destruct pat; [discriminate | reflexivity].
  - rewrite includes_cons in H. apply orb_false_iff in H as [E H].
    now rewrite replace_cons, E, IH.
Qed.

(** The first occurrence, and only it, is rewritten. *)
Lemma replace_present (pat rep s : string) :
  includes pat s = true ->
  exists pre post,
    s = pre ++ pat ++ post /\
    replace pat rep s = pre ++ rep ++ post /\
    forall pre' post',
      s = pre' ++ pat ++ post' -> String.length pre <= String.length pre'.
Proof.
  induction s as [|c s IH]; intros H.
  - unfold includes in H. rewrite orb_false_r in H.
    apply prefix_empty in H as ->. exists "", "".
    split; [reflexivity | split; [reflexivity | intros; simpl; lia]].
  - rewrite includes_cons in H. rewrite replace_cons.
    destruct (prefix pat (String c s)) eqn:E.
    + exists "", (drop (String.length pat) (String c s)).
      split; [now apply prefix_split |].
      split; [reflexivity | intros; simpl; lia].
    + simpl in H. destruct (IH H) as (pre & post & Hs & Hr & Hmin).
      exists (String c pre), post. cbn [append]. rewrite Hr, <- Hs.
      split; [reflexivity | split; [reflexivity |]].
      intros pre' post' Hs'.
      destruct pre' as [|c' pre']; cbn [append] in Hs'.
      * rewrite Hs' in E. now rewrite prefix_append in E.
      * injection Hs' as _ Hs'. simpl. apply le_n_S.
        now apply (Hmin pre' post').
Qed.

End StrFacts.

(** ** Objects *)

Section ObjectFacts.

Implicit Types (o acc : object) (k nm : string) (v : value).

Lemma eqb_sym_false k k' : String.eqb k k' = false -> String.eqb k' k = false.
Proof. rewrite !String.eqb_neq. congruence. Qed.

Lemma obj_get_set k k' v o :
  obj_get k (obj_set k' v o) = if String.eqb k' k then Some v else obj_get k o.
Proof.
  induction o as [|[k0 v0] o IH]; simpl.
  - reflexivity.
  - destruct (String.eqb k0 k') eqn:E0; simpl.
    + apply String.eqb_eq in E0 as ->. now destruct (String.eqb k' k).
    + destruct (String.eqb k0 k) eqn:E1.
      * apply String.eqb_eq in E1 as ->. now rewrite (eqb_sym_false _ _ E0).
      * exact IH.
Qed.

Lemma obj_get_app k (o1 o2 : object) :
  obj_get k (o1 ++ o2)%list =
  match obj_get k o1 with
  | Some v => Some v
  | None => obj_get k o2
  end.
Proof.
  induction o1 as [|[k0 v0] o1 IH]; simpl; [reflexivity|].
  now destruct (String.eqb k0 k).
Qed.

Lemma obj_get_In k v o : obj_get k o = Some v -> In (k, v) o.
Proof.
  induction o as [|[k0 v0] o IH]; simpl; [discriminate|].
  destruct (String.eqb k0 k) eqn:E.
  - apply String.eqb_eq in E as ->. intros [= ->]. now left.
  - intros H. right. now apply IH.
Qed.

Lemma obj_get_None k o : obj_get k o = None <-> ~ In k (keys o).
Proof.
  induction o as [|[k0 v0] o IH]; simpl.
  - tauto.
  - destruct (String.eqb k0 k) eqn:E.
    + apply String.eqb_eq in E. split; [discriminate | intros H; exfalso; auto].
    + apply String.eqb_neq in E. rewrite IH. tauto.
Qed.

Lemma obj_get_Some_key k v o : obj_get k o = Some v -> In k (keys o).
Proof. intros H. apply obj_get_In in H. now apply (in_map fst) in H. Qed.

Lemma In_key_get k o : In k (keys o) -> exists v, obj_get k o = Some v.
Proof.
  intros H. destruct (obj_get k o) as [v|] eqn:E; [now exists v|].
  now apply obj_get_None in E.
Qed.

Lemma existsb_eqb k (l : list string) :
  existsb (String.eqb k) l = true <-> In k l.
Proof.
  rewrite existsb_exists. split.
  - intros (x & Hx & E). now apply String.eqb_eq in E as ->.
  - intros H. exists k. split; [exact H | apply String.eqb_refl].
Qed.

Lemma distinct_NoDup (l : list string) : distinct l = true <-> NoDup l.
Proof.
  induction l as [|k l IH]; simpl.
  - split; [constructor | reflexivity].
  - rewrite andb_true_iff, negb_true_iff, IH. split.
    + intros [H1 H2]. constructor; [|exact H2].
      intros Hin. apply existsb_eqb in Hin. congruence.
    + intros H. inversion H as [|? ? Hn Hd]; subst. split; [|exact Hd].
      destruct (existsb (String.eqb k) l) eqn:E; [|reflexivity].
      now apply existsb_eqb in E.
Qed.

(** With distinct keys, a listed property is the one found. *)
Lemma In_obj_get k v o :
  well_formed o = true -> In (k, v) o -> obj_get k o = Some v.
Proof.
  unfold well_formed. rewrite distinct_NoDup.
  induction o as [|[k0 v0] o IH]; simpl; intros Hd Hin; [contradiction|].
  inversion Hd as [|? ? Hn Hd']; subst.
  destruct Hin as [[= -> ->]|Hin].
  - now rewrite String.eqb_refl.
  - destruct (String.eqb k0 k) eqn:E.
    + apply String.eqb_eq in E as ->. exfalso. apply Hn.
      now apply (in_map fst) in Hin.
    + now apply IH.
Qed.

Lemma keys_obj_set k v o :
  keys (obj_set k v o) = if existsb (String.eqb k) (keys o)
                         then keys o else (keys o ++ [k])%list.
Proof.
  induction o as [|[k0 v0] o IH]; simpl; [reflexivity|].
  destruct (String.eqb k0 k) eqn:E.
  - apply String.eqb_eq in E as ->. now rewrite String.eqb_refl.
  - rewrite (eqb_sym_false _ _ E). simpl. rewrite IH.
    now destruct (existsb (String.eqb k) (keys o)).
Qed.

Lemma obj_set_well_formed k v o :
  well_formed o = true -> well_formed (obj_set k v o) = true.
Proof.
  unfold well_formed. rewrite !distinct_NoDup, keys_obj_set.
  destruct (existsb (String.eqb k) (keys o)) eqn:E; [trivial|].
  intros Hd. apply NoDup_app; [exact Hd | repeat constructor; simpl; tauto |].
  intros x Hx [<-|[]]. apply existsb_eqb in Hx. congruence.
Qed.

Lemma In_keys_obj_set k k' v o :
  In k (keys (obj_set k' v o)) <-> k = k' \/ In k (keys o).
Proof.
  rewrite keys_obj_set.
  destruct (existsb (String.eqb k') (keys o)) eqn:E.
  - apply existsb_eqb in E. split; [tauto | intros [->|H]; assumption].
  - rewrite in_app_iff. simpl. split; [intros [H|[<-|[]]]; tauto|].
    intros [->|H]; [right; now left | now left].
Qed.

End ObjectFacts.

(** ** The key normalizer *)

Section MapKeysFacts.

Variable f : value -> string -> string.

Implicit Types (o acc : object) (k nm : string) (v : value).

Lemma obj_get_unique nm v (l : object) :
  In (nm, v) l -> (forall v', In (nm, v') l -> v' = v) ->
  obj_get nm l = Some v.
Proof.
  induction l as [|[k0 v0] l IH]; simpl; intros Hin Hu; [contradiction|].
  destruct (String.eqb k0 nm) eqn:E.
  - apply String.eqb_eq in E as ->. f_equal. apply Hu. now left.
  - apply IH.
    + destruct Hin as [[= -> _]|Hin]; [|exact Hin].
      now rewrite String.eqb_refl in E.
    + intros v' Hv'. apply Hu. now right.
Qed.

Lemma mapKeys_loop_get nm o acc :
  obj_get nm
    (fold_left (fun result '(key, v) => obj_set (f v key) v result) o acc) =
  match obj_get nm (rev (map (rename f) o)) with
  | Some v => Some v
  | None => obj_get nm acc
  end.
Proof.
  revert acc. induction o as [|[k0 v0] o IH]; intros acc; simpl.
  - reflexivity.
  - rewrite IH, obj_get_app, obj_get_set.
    destruct (obj_get nm (rev (map (rename f) o))); [reflexivity|].
    unfold rename. simpl. now destruct (String.eqb (f v0 k0) nm).
Qed.

(** Later properties overwrite earlier ones of the same new name. *)
Lemma mapKeys_get nm o :
  obj_get nm (mapKeys f o) = obj_get nm (rev (map (rename f) o)).
Proof.
  unfold mapKeys. rewrite mapKeys_loop_get.
  now destruct (obj_get nm (rev (map (rename f) o))).
Qed.

Lemma mapKeys_loop_well_formed o acc :
  well_formed acc = true ->
  well_formed
    (fold_left (fun result '(key, v) => obj_set (f v key) v result) o acc) = true.
Proof.
  revert acc. induction o as [|[k0 v0] o IH]; intros acc H; simpl.
  - exact H.
  - apply IH. now apply obj_set_well_formed.
Qed.

Lemma mapKeys_well_formed o : well_formed (mapKeys f o) = true.
Proof. now apply mapKeys_loop_well_formed. Qed.

Lemma mapKeys_keys nm o :
  In nm (keys (mapKeys f o)) <-> exists k v, In (k, v) o /\ f v k = nm.
Proof.
  split.
  - intros H. apply In_key_get in H as [v H].
    rewrite mapKeys_get in H. apply obj_get_In in H.
    apply in_rev, in_map_iff in H as ([k0 v0] & [= <- <-] & Hin).
    now exists k0, v0.
  - intros (k & v & Hin & <-).
    destruct (obj_get (f v k) (mapKeys f o)) as [v'|] eqn:E.
    + now apply obj_get_Some_key in E.
    + rewrite mapKeys_get in E. apply obj_get_None in E. exfalso. apply E.
      unfold keys. apply in_map_iff. exists (f v k, v). split; [reflexivity|].
      apply in_rev. rewrite rev_involutive.
      apply in_map_iff. now exists (k, v).
Qed.

(** A property whose new name no other property takes keeps its value. *)
Lemma mapKeys_unique k v o :
  well_formed o = true -> obj_get k o = Some v ->
  (forall k' v', In (k', v') o -> f v' k' = f v k -> k' = k) ->
  obj_get (f v k) (mapKeys f o) = Some v.
Proof.
  intros Hwf Hget Hu. rewrite mapKeys_get. apply obj_get_unique.
  - apply in_rev. rewrite rev_involutive. apply in_map_iff.
    exists (k, v). split; [reflexivity | now apply obj_get_In].
  - intros v' Hin.
    apply in_rev, in_map_iff in Hin as ([k0 v0] & [= E <-] & Hin).
    pose proof (Hu k0 v0 Hin E) as ->.
    apply (In_obj_get _ _ _ Hwf) in Hin. congruence.
Qed.

(** Of several properties with one new name, the last one is kept. *)
Lemma mapKeys_last k v (before after : object) :
  (forall k' v', In (k', v') after -> f v' k' <> f v k) ->
  obj_get (f v k) (mapKeys f (before ++ (k, v) :: after)%list) = Some v.
Proof.
  intros Hafter. rewrite mapKeys_get, map_app, rev_app_distr, obj_get_app.
  simpl. rewrite obj_get_app.
  destruct (obj_get (f v k) (rev (map (rename f) after))) as [v'|] eqn:E.
  - apply obj_get_In, in_rev, in_map_iff in E as ([k0 v0] & [= E <-] & Hin).
    now apply Hafter in Hin.
  - unfold rename at 1. simpl. now rewrite String.eqb_refl.
Qed.

Lemma obj_set_length_le k v o :
  List.length (obj_set k v o) <= S (List.length o).
Proof.
  induction o as [|[k0 v0] o IH]; simpl; [lia|].
  destruct (String.eqb k0 k); simpl; lia.
Qed.

Lemma obj_set_length_present k v o :
  In k (keys o) -> List.length (obj_set k v o) = List.length o.
Proof.
  induction o as [|[k0 v0] o IH]; simpl; [contradiction|].
  destruct (String.eqb k0 k) eqn:E; simpl; [reflexivity|].
  intros [->|H]; [now rewrite String.eqb_refl in E | now rewrite IH].
Qed.

Lemma mapKeys_loop_length_le o acc :
  List.length
    (fold_left (fun result '(key, v) => obj_set (f v key) v result) o acc)
  <= List.length acc + List.length o.
Proof.
  revert acc. induction o as [|[k0 v0] o IH]; intros acc; simpl; [lia|].
  specialize (IH (obj_set (f v0 k0) v0 acc)).
  pose proof (obj_set_length_le (f v0 k0) v0 acc). lia.
Qed.

(** A property whose new name is already taken adds nothing. *)
Lemma mapKeys_loop_length_taken k v o acc :
  In (k, v) o -> In (f v k) (keys acc) ->
  List.length
    (fold_left (fun result '(key, v) => obj_set (f v key) v result) o acc)
  < List.length acc + List.length o.
Proof.
  revert acc. induction o as [|[k0 v0] o IH]; intros acc Hin Hacc; simpl.
  - contradiction.
  - destruct Hin as [[= -> ->]|Hin].
    + pose proof (mapKeys_loop_length_le o (obj_set (f v k) v acc)).
      rewrite (obj_set_length_present _ _ _ Hacc) in H. simpl in *. lia.
    + assert (In (f v k) (keys (obj_set (f v0 k0) v0 acc)))
        by (apply In_keys_obj_set; now right).
      specialize (IH _ Hin H).
      pose proof (obj_set_length_le (f v0 k0) v0 acc). simpl in *. lia.
Qed.

(** Two properties with one new name: the result is shorter. *)
Lemma mapKeys_length_collision k1 v1 k2 v2 (a b c : object) :
  f v1 k1 = f v2 k2 ->
  List.length (mapKeys f (a ++ (k1, v1) :: b ++ (k2, v2) :: c)%list)
  < List.length (a ++ (k1, v1) :: b ++ (k2, v2) :: c)%list.
Proof.
  intros E. unfold mapKeys. rewrite fold_left_app. simpl.
  set (acc := fold_left
                (fun result '(key, v) => obj_set (f v key) v result) a []).
  assert (Ha : List.length acc <= List.length a).
  { pose proof (mapKeys_loop_length_le a []). simpl in *. exact H. }
  pose proof (obj_set_length_le (f v1 k1) v1 acc) as Hs.
  assert (Hlt : List.length
            (fold_left (fun result '(key, v) => obj_set (f v key) v result)
               (b ++ (k2, v2) :: c)%list (obj_set (f v1 k1) v1 acc))
          < List.length (obj_set (f v1 k1) v1 acc)
            + List.length (b ++ (k2, v2) :: c)%list).
  { apply (mapKeys_loop_length_taken k2 v2).
    - apply in_app_iff. right. now left.
    - rewrite <- E. apply In_keys_obj_set. now left. }
  rewrite !length_app in *. simpl in *. rewrite !length_app in *. simpl in *.
  lia.
Qed.

End MapKeysFacts.

Section NormalizerFacts.

Implicit Types (o : object) (k nm : string) (v : value).

Lemma normalize_key_absent k :
  Str.includes "resin" k = false -> normalize_key k = k.
Proof. apply StrFacts.replace_absent. Qed.

Lemma normalize_key_present k :
  Str.includes "resin" k = true ->
  exists pre post,
    k = pre ++ "resin" ++ post /\
    normalize_key k = pre ++ "balena" ++ post /\
    forall pre' post',
      k = pre' ++ "resin" ++ post' -> String.length pre <= String.length pre'.
Proof. apply StrFacts.replace_present. Qed.

Lemma replaceResinKeys_keys nm o :
  In nm (keys (replaceResinKeys o)) <->
  exists k, In k (keys o) /\ normalize_key k = nm.
Proof.
  unfold replaceResinKeys. rewrite mapKeys_keys. split.
  - intros (k & v & Hin & E). exists k. split; [|exact E].
    now apply (in_map fst) in Hin.
  - intros (k & Hin & E). apply In_key_get in Hin as [v Hv].
    exists k, v. split; [now apply obj_get_In | exact E].
Qed.

(** Two listed properties with different keys come in one of two orders. *)
Lemma two_positions (x y : string * value) (l : object) :
  In x l -> In y l -> x <> y ->
  exists a b c,
    l = (a ++ x :: b ++ y :: c)%list \/ l = (a ++ y :: b ++ x :: c)%list.
Proof.
  intros Hx Hy Hne. apply in_split in Hx as (l1 & l2 & ->).
  apply in_app_iff in Hy as [Hy|[Hy|Hy]].
  - apply in_split in Hy as (a & b & ->). exists a, b, l2. right.
    now rewrite <- app_assoc.
  - congruence.
  - apply in_split in Hy as (b & c & ->). exists l1, b, c. now left.
Qed.

Lemma distinct_tail_keys k v (a c : object) :
  well_formed (a ++ (k, v) :: c)%list = true -> ~ In k (keys c).
Proof.
  unfold well_formed, keys. rewrite distinct_NoDup, map_app. simpl.
  intros H Hin. apply NoDup_remove_2 in H. apply H, in_app_iff. now right.
Qed.

End NormalizerFacts.

(** C3, as stated, fails: when two keys of the mapping normalize to one
    name, one of the two values is not kept. In [{resinUrl: a, balenaUrl: b}]
    the key [resinUrl] becomes [balenaUrl] but its value [a] is lost, and in
    [{balenaUrl: b, resinUrl: a}] the key [balenaUrl], which has no legacy
    substring, does not keep its value [b]. *)
Lemma replaceResinKeys_collision_loses_value :
  well_formed [("resinUrl", VStr "a"); ("balenaUrl", VStr "b")] = true /\
  normalize_key "resinUrl" = "balenaUrl" /\
  obj_get (normalize_key "resinUrl")
    (replaceResinKeys [("resinUrl", VStr "a"); ("balenaUrl", VStr "b")])
  <> Some (VStr "a") /\
  Str.includes "resin" "balenaUrl" = false /\
  obj_get "balenaUrl"
    (replaceResinKeys [("balenaUrl", VStr "b"); ("resinUrl", VStr "a")])
  <> Some (VStr "b").
Proof. repeat split; try reflexivity; vm_compute; discriminate. Qed.

(** C3, amended: applied to any flat mapping, the normalizer returns a
    mapping whose keys are exactly the normalized keys of the input. A key
    without the legacy substring is unchanged; in a key with it the first
    occurrence is replaced by the current product name and the rest of the
    key is unchanged. The value of a key is kept under its normalized key
    unless a later key of the mapping normalizes to the same name; in
    particular it is kept when no other key does. *)
Theorem replaceResinKeys_spec (o : object) :
  (forall nm, In nm (keys (replaceResinKeys o)) <->
              exists k, In k (keys o) /\ normalize_key k = nm) /\
  (forall k, Str.includes "resin" k = false -> normalize_key k = k) /\
  (forall k,
      Str.includes "resin" k = true ->
      exists pre post,
        k = pre ++ "resin" ++ post /\
        normalize_key k = pre ++ "balena" ++ post /\
        forall pre' post',
          k = pre' ++ "resin" ++ post' ->
          String.length pre <= String.length pre') /\
  (forall before k v after,
      o = (before ++ (k, v) :: after)%list ->
      (forall k' v', In (k', v') after ->
                     normalize_key k' <> normalize_key k) ->
      obj_get (normalize_key k) (replaceResinKeys o) = Some v) /\
  (well_formed o = true ->
   forall k v,
     obj_get k o = Some v ->
     (forall k', In k' (keys o) ->
                 normalize_key k' = normalize_key k -> k' = k) ->
     obj_get (normalize_key k) (replaceResinKeys o) = Some v).
Proof.
  split; [|split; [|split; [|split]]].
  - intros nm. apply replaceResinKeys_keys.
  - apply normalize_key_absent.
  - apply normalize_key_present.
  - intros before k v after -> Hafter. unfold replaceResinKeys.
    now apply (mapKeys_last (fun _ key => normalize_key key)).
  - intros Hwf k v Hget Hu. unfold replaceResinKeys.
    apply (mapKeys_unique (fun _ key => normalize_key key) k v o Hwf Hget).
    intros k' v' Hin E. apply Hu; [|exact E]. now apply (in_map fst) in Hin.
Qed.

Lemma replaceResinKeys_spec_witness :
  (In "balenaUrl"
      (keys (replaceResinKeys
               [("resinUrl", VStr "a"); ("balenaUrl", VStr "b")])) <->
   exists k,
     In k (keys [("resinUrl", VStr "a"); ("balenaUrl", VStr "b")]) /\
     normalize_key k = "balenaUrl") /\
  obj_get (normalize_key "balenaUrl")
    (replaceResinKeys [("resinUrl", VStr "a"); ("balenaUrl", VStr "b")])
  = Some (VStr "b") /\
  (forall nm, In nm (keys (replaceResinKeys [])) <->
              exists k, In k (keys []) /\ normalize_key k = nm).
Proof.
  split; [|split].
  - apply (proj1 (replaceResinKeys_spec
                    [("resinUrl", VStr "a"); ("balenaUrl", VStr "b")])).
  - apply (proj1 (proj2 (proj2 (proj2
             (replaceResinKeys_spec
                [("resinUrl", VStr "a"); ("balenaUrl", VStr "b")]))))
             [("resinUrl", VStr "a")] "balenaUrl" (VStr "b") []).
    + reflexivity.
    + intros k' v' [].
  - apply (proj1 (replaceResinKeys_spec [])).
Defined.

(** C10, as stated, fails: with three keys of one normalized name, the
    two that come first both lose their values. In
    [{resinbalena: a, balenaresin: b, balenabalena: c}] the distinct keys
    [resinbalena] and [balenaresin] normalize to [balenabalena]; the
    normalized mapping is [{balenabalena: c}], in which neither [a] nor
    [b] survives. *)
Lemma replaceResinKeys_third_key_wins :
  well_formed
    [("resinbalena", VStr "a"); ("balenaresin", VStr "b");
     ("balenabalena", VStr "c")] = true /\
  obj_get "resinbalena"
    [("resinbalena", VStr "a"); ("balenaresin", VStr "b");
     ("balenabalena", VStr "c")] = Some (VStr "a") /\
  obj_get "balenaresin"
    [("resinbalena", VStr "a"); ("balenaresin", VStr "b");
     ("balenabalena", VStr "c")] = Some (VStr "b") /\
  "resinbalena" <> "balenaresin" /\
  normalize_key "resinbalena" = normalize_key "balenaresin" /\
  replaceResinKeys
    [("resinbalena", VStr "a"); ("balenaresin", VStr "b");
     ("balenabalena", VStr "c")] = [("balenabalena", VStr "c")] /\
  VStr "c" <> VStr "a" /\ VStr "c" <> VStr "b".
Proof. repeat split; try reflexivity; discriminate. Qed.

(** C10, amended: when a mapping holds two distinct keys that normalize to
    the same name, the normalized mapping holds that name exactly once and
    has fewer properties than the mapping; the value kept under the name
    is that of the last key, in enumeration order, that normalizes to it.
    So when these two are the only keys with that name, exactly one of
    the two values survives, that of the later key, and the other is
    dropped. *)
Theorem replaceResinKeys_collision
    (o : object) (k1 k2 : string) (v1 v2 : value) :
  well_formed o = true ->
  obj_get k1 o = Some v1 ->
  obj_get k2 o = Some v2 ->
  k1 <> k2 ->
  normalize_key k1 = normalize_key k2 ->
  count_occ string_dec (keys (replaceResinKeys o)) (normalize_key k1) = 1 /\
  List.length (replaceResinKeys o) < List.length o /\
  (forall before k v after,
      o = (before ++ (k, v) :: after)%list ->
      normalize_key k = normalize_key k1 ->
      (forall k' v', In (k', v') after ->
                     normalize_key k' <> normalize_key k1) ->
      obj_get (normalize_key k1) (replaceResinKeys o) = Some v) /\
  ((forall k, In k (keys o) -> normalize_key k = normalize_key k1 ->
              k = k1 \/ k = k2) ->
   exists a b c,
     (o = (a ++ (k1, v1) :: b ++ (k2, v2) :: c)%list /\
      obj_get (normalize_key k1) (replaceResinKeys o) = Some v2) \/
     (o = (a ++ (k2, v2) :: b ++ (k1, v1) :: c)%list /\
      obj_get (normalize_key k1) (replaceResinKeys o) = Some v1)).
Proof.
  intros Hwf H1 H2 Hne E.
  pose proof (obj_get_In _ _ _ H1) as In1.
  pose proof (obj_get_In _ _ _ H2) as In2.
  assert (Hxy : (k1, v1) <> (k2, v2)) by congruence.
  split; [|split; [|split]].
  - apply NoDup_count_occ'.
    + apply distinct_NoDup. apply (mapKeys_well_formed _ o).
    + apply replaceResinKeys_keys. exists k1. split; [|reflexivity].
      now apply (in_map fst) in In1.
  - destruct (two_positions _ _ _ In1 In2 Hxy) as (a & b & c & [->| ->]).
    + now apply (mapKeys_length_collision (fun _ key => normalize_key key)).
    + apply (mapKeys_length_collision (fun _ key => normalize_key key)).
      now symmetry.
  - intros before k v after Ho Ek Hafter. rewrite Ho, <- Ek.
    unfold replaceResinKeys.
    apply (mapKeys_last (fun _ key => normalize_key key)).
    intros k' v' Hin. rewrite Ek. now apply (Hafter k' v').
  - intros Honly.
    assert (Hlast : forall (a c : object) k v k' v',
               o = (a ++ (k, v) :: c)%list ->
               normalize_key k = normalize_key k1 ->
               (k = k1 \/ k = k2) ->
               ~ In k1 (keys c) \/ k = k1 -> ~ In k2 (keys c) \/ k = k2 ->
               In (k', v') c -> normalize_key k' <> normalize_key k).
    { intros a c k v k' v' -> Ek Hk Hc1 Hc2 Hin En.
      pose proof (distinct_tail_keys _ _ _ _ Hwf) as Hnk.
      assert (Hk' : In k' (keys c)) by now apply (in_map fst) in Hin.
      assert (In k' (keys (a ++ (k, v) :: c)%list)).
      { unfold keys. rewrite map_app. apply in_app_iff. right. now right. }
      destruct (Honly k' H) as [->| ->]; [congruence | |].
      - destruct Hc1 as [Hc1| ->]; [now apply Hc1 | now apply Hnk].
      - destruct Hc2 as [Hc2| ->]; [now apply Hc2 | now apply Hnk]. }
    destruct (two_positions _ _ _ In1 In2 Hxy) as (a & b & c & [Ho|Ho]);
      exists a, b, c; [left | right]; (split; [exact Ho|]).
    + rewrite E. unfold replaceResinKeys.
      replace o with ((a ++ (k1, v1) :: b) ++ (k2, v2) :: c)%list
        by now rewrite <- app_assoc.
      apply (mapKeys_last (fun _ key => normalize_key key)).
      intros k' v' Hin.
      apply (Hlast (a ++ (k1, v1) :: b)%list c k2 v2 k' v');
        [now rewrite <- app_assoc | now symmetry | now right | | now right
        | exact Hin].
      left. intros Hc. rewrite Ho in Hwf.
      apply distinct_tail_keys in Hwf. apply Hwf.
      unfold keys. rewrite map_app. apply in_app_iff. right. now right.
    + unfold replaceResinKeys.
      replace o with ((a ++ (k2, v2) :: b) ++ (k1, v1) :: c)%list
        by now rewrite <- app_assoc.
      apply (mapKeys_last (fun _ key => normalize_key key)).
      intros k' v' Hin.
      apply (Hlast (a ++ (k2, v2) :: b)%list c k1 v1 k' v');
        [now rewrite <- app_assoc | reflexivity | now left | now right |
        | exact Hin].
      left. intros Hc. rewrite Ho in Hwf.
      apply distinct_tail_keys in Hwf. apply Hwf.
      unfold keys. rewrite map_app. apply in_app_iff. right. now right.
Qed.

Lemma replaceResinKeys_collision_witness :
  count_occ string_dec
    (keys (replaceResinKeys
             [("resinUrl", VStr "a"); ("balenaUrl", VStr "b")]))
    (normalize_key "resinUrl") = 1.
Proof.
  apply (replaceResinKeys_collision
           [("resinUrl", VStr "a"); ("balenaUrl", VStr "b")]
           "resinUrl" "balenaUrl" (VStr "a") (VStr "b")).
  - reflexivity.
  - reflexivity.
  - reflexivity.
  - discriminate.
  - reflexivity.
Defined.

(** ** The merge *)

Section MergeFacts.

Implicit Types (o acc target source : object) (k : string) (v : value).

Lemma merge_value_objects target source :
  merge_value (Some (VObj target)) (VObj source) =
  VObj (merge_into target source).
Proof.
  simpl. f_equal. unfold merge_into. revert target.
  induction source as [|[k v] source IH]; intros target; simpl.
  - reflexivity.
  - apply IH.
Qed.

Lemma merge_value_not_object old v :
  is_object v = false -> merge_value old v = v.
Proof. now destruct v. Qed.

Lemma merge_into_get k target source :
  well_formed source = true ->
  obj_get k (merge_into target source) =
  match obj_get k source with
  | Some v => Some (merge_value (obj_get k target) v)
  | None => obj_get k target
  end.
Proof.
  unfold merge_into, well_formed. revert target.
  induction source as [|[k0 v0] source IH]; intros target Hd; simpl.
  - reflexivity.
  - simpl in Hd. apply andb_true_iff in Hd as [Hn Hd].
    rewrite (IH _ Hd), obj_get_set.
    destruct (String.eqb k0 k) eqn:E.
    + apply String.eqb_eq in E as ->.
      apply negb_true_iff in Hn.
      destruct (obj_get k source) as [v|] eqn:Hg; [|reflexivity].
      apply obj_get_Some_key, existsb_eqb in Hg. congruence.
    + reflexivity.
Qed.

Lemma merge_all_get k (sources : list object) acc :
  forallb well_formed sources = true ->
  obj_get k (fold_left merge_into sources acc) =
  merged k sources (obj_get k acc).
Proof.
  unfold merged. revert acc.
  induction sources as [|s sources IH]; intros acc Hwf; simpl.
  - reflexivity.
  - simpl in Hwf. apply andb_true_iff in Hwf as [Hs Hwf].
    now rewrite (IH _ Hwf), (merge_into_get _ _ _ Hs).
Qed.

Lemma highest_snoc k (sources : list object) source :
  highest k (sources ++ [source])%list =
  match obj_get k source with
  | Some v => Some v
  | None => highest k sources
  end.
Proof. unfold highest. now rewrite fold_left_app. Qed.

Lemma merged_snoc k (sources : list object) source start :
  merged k (sources ++ [source])%list start =
  match obj_get k source with
  | Some v => Some (merge_value (merged k sources start) v)
  | None => merged k sources start
  end.
Proof. unfold merged. now rewrite fold_left_app. Qed.

(** A value that is not an object overwrites whatever the lower sources
    left. *)
Lemma merged_highest k (sources : list object) v start :
  highest k sources = Some v -> is_object v = false ->
  merged k sources start = Some v.
Proof.
  induction sources as [|source sources IH] using rev_ind; intros H Hv.
  - discriminate.
  - rewrite highest_snoc in H. rewrite merged_snoc.
    destruct (obj_get k source) as [v'|].
    + injection H as ->. now rewrite merge_value_not_object.
    + now apply IH.
Qed.

End MergeFacts.

(** ** Running the module *)

Section RunFacts.

Variable w : world.

Lemma bind_alloc {B} o (k : ref -> M B) st :
  bind (alloc o) k st = k (List.length (heap st)) (push o st).
Proof. reflexivity. Qed.

Lemma bind_count_run {B} (k : unit -> M B) st :
  bind count_run k st = k tt (with_runs (S (runs st)) st).
Proof. reflexivity. Qed.

(** [readConfigFile] logs one read and then either throws or stores the
    mapping it read. *)
Lemma readConfigFile_eq path st :
  readConfigFile w path st =
  match read_source w path with
  | inl e => (inl e, logged path st)
  | inr o => (inr (List.length (heap st)), push o (logged path st))
  end.
Proof.
  unfold readConfigFile, read_source, readFileSync, yaml_parse_call,
    bind, try_catch, log_read.
  destruct (fs w path) as [|e|contents]; simpl.
  - reflexivity.
  - destruct (is_enoent e); reflexivity.
  - destruct (yaml_parse w contents); reflexivity.
Qed.

Lemma bind_readConfigFile {B} path (k : ref -> M B) st :
  bind (readConfigFile w path) k st =
  match read_source w path with
  | inl e => (inl e, logged path st)
  | inr o => k (List.length (heap st)) (push o (logged path st))
  end.
Proof.
  unfold bind at 1. rewrite readConfigFile_eq.
  now destruct (read_source w path).
Qed.

Lemma bind_replaceResinKeys_call {B} r (k : ref -> M B) st :
  bind (replaceResinKeys_call r) k st =
  k (List.length (heap st)) (push (replaceResinKeys (lookup r st)) st).
Proof. reflexivity. Qed.

Lemma bind_environment_parse_call {B} (k : ref -> M B) st :
  bind (environment_parse_call w) k st =
  k (List.length (heap st)) (push (environment_parse w (process_env w)) st).
Proof. reflexivity. Qed.

Lemma computeSettings_ok (sources : list object) :
  config_sources w = inr sources ->
  exists h,
    computeSettings w (started w) =
    (inr 1,
     {| heap := defaults w :: merge_all sources :: h; once_n := 1;
        once_result := None; reads := all_paths w; runs := 1 |}).
Proof.
  unfold config_sources, computeSettings.
  rewrite bind_count_run, bind_alloc, bind_readConfigFile.
  destruct (read_source w (userLegacy (paths w))) as [e|ul]; [discriminate|].
  rewrite bind_replaceResinKeys_call, bind_readConfigFile.
  destruct (read_source w (user (paths w))) as [e|u]; [discriminate|].
  rewrite bind_readConfigFile.
  destruct (read_source w (projectLegacy (paths w))) as [e|pl]; [discriminate|].
  rewrite bind_replaceResinKeys_call, bind_readConfigFile.
  destruct (read_source w (project (paths w))) as [e|p]; [discriminate|].
  rewrite bind_environment_parse_call.
  intros [= <-]. eexists. reflexivity.
Qed.

Lemma computeSettings_err (e : js_error) :
  config_sources w = inl e ->
  exists h,
    computeSettings w (started w) =
    (inl e,
     {| heap := defaults w :: h; once_n := 1; once_result := None;
        reads := firstn (files_read w) (all_paths w); runs := 1 |}).
Proof.
  unfold config_sources, files_read, computeSettings.
  rewrite bind_count_run, bind_alloc, bind_readConfigFile.
  destruct (read_source w (userLegacy (paths w))) as [e1|ul].
  { intros [= <-]. eexists. reflexivity. }
  rewrite bind_replaceResinKeys_call, bind_readConfigFile.
  destruct (read_source w (user (paths w))) as [e2|u].
  { intros [= <-]. eexists. reflexivity. }
  rewrite bind_readConfigFile.
  destruct (read_source w (projectLegacy (paths w))) as [e3|pl].
  { intros [= <-]. eexists. reflexivity. }
  rewrite bind_replaceResinKeys_call, bind_readConfigFile.
  destruct (read_source w (project (paths w))) as [e4|p].
  { intros [= <-]. eexists. reflexivity. }
  discriminate.
Qed.

End RunFacts.

(** ** After the first call *)

Section SettledFacts.

Variable w : world.

Lemma getSettings_settled st :
  (once_n st <= 1)%Z ->
  getSettings w st = (inr (once_result st), with_n (once_n st - 1) st).
Proof.
  intros Hn. unfold getSettings, bind, decrement_n. simpl.
  destruct (0 <? once_n st - 1)%Z eqn:E; [|reflexivity].
  apply Z.ltb_lt in E. lia.
Qed.

(** What [get] answers from the kept reference. *)
Lemma get_settled name st :
  (once_n st <= 1)%Z ->
  get w name st =
  (inr match once_result st with
       | None => VUndefined
       | Some r => evaluateSetting (lookup r st) name
       end,
   with_n (once_n st - 1) st).
Proof.
  intros Hn. unfold get, bind. rewrite (getSettings_settled _ Hn).
  now destruct (once_result st).
Qed.

Lemma mapValues_loop_settled r (o acc : object) st :
  (once_n st <= 1)%Z ->
  once_result st = Some r ->
  mapValues_loop (fun _ name => get w name) o acc st =
  (inr (evaluate_all (lookup r st) o acc),
   with_n (once_n st - Z.of_nat (List.length o)) st).
Proof.
  revert acc st. induction o as [|[key v] o IH]; intros acc st Hn Hr.
  - simpl. unfold ret, with_n. rewrite Z.sub_0_r. now destruct st.
  - cbn [mapValues_loop]. unfold bind at 1.
    rewrite (get_settled _ _ Hn), Hr.
    rewrite IH; [|simpl; lia|exact Hr].
    unfold with_n, lookup. cbn [heap once_n once_result reads runs].
    replace (once_n st - Z.of_nat (List.length ((key, v) :: o)))%Z
      with (once_n st - 1 - Z.of_nat (List.length o))%Z
      by (cbn [List.length]; lia).
    reflexivity.
Qed.

Lemma nth_error_lookup r (o : object) st :
  nth_error (heap st) r = Some o -> lookup r st = o.
Proof. unfold lookup. intros H. now apply nth_error_nth. Qed.

Lemma nth_error_extended {A} (h ext : list A) r (a : A) :
  nth_error h r = Some a -> nth_error (h ++ ext)%list r = Some a.
Proof.
  intros H. rewrite nth_error_app1; [exact H|].
  apply nth_error_Some. congruence.
Qed.

Lemma answers_extended cache c out st st' ext :
  heap st' = (heap st ++ ext)%list ->
  answers cache c out st -> answers cache c out st'.
Proof.
  intros Hh. destruct c, out; simpl; trivial.
  rewrite Hh. apply nth_error_extended.
Qed.

Lemma settled_with_n files cache n st :
  settled w files cache st -> (n <= 1)%Z ->
  settled w files cache (with_n n st).
Proof.
  intros (Hn & Hreads & Hruns & Hres & Hdef & Hcache) Hle.
  unfold settled, with_n; cbn [heap once_n once_result reads runs].
  repeat split; assumption.
Qed.

(** [get] once it holds the settings. *)
Lemma get_rest files cache name st :
  settled w files cache st ->
  exists v,
    match option_map fst cache with
    | None => ret VUndefined
    | Some r => o <- load r ;; ret (evaluateSetting o name)
    end st = (inr v, st) /\
    answers cache (Get name) (Value v) st.
Proof.
  intros (Hn & Hreads & Hruns & Hres & Hdef & Hcache).
  destruct cache as [[r settings]|]; cbn [option_map fst answers].
  - eexists. split; [reflexivity|]. cbn beta.
    now rewrite (nth_error_lookup _ _ _ (Hcache _ _ eq_refl)).
  - eexists. split; reflexivity.
Qed.

(** [getAll] once it holds the settings. *)
Lemma mapValues_settled files cache st :
  settled w files cache st ->
  exists r' st' ext,
    mapValues (option_map fst cache) (fun _ name => get w name) st =
    (inr r', st') /\
    heap st' = (heap st ++ ext)%list /\
    settled w files cache st' /\
    answers cache GetAll (Mapping r') st'.
Proof.
  intros (Hn & Hreads & Hruns & Hres & Hdef & Hcache).
  destruct cache as [[r settings]|]; cbn [option_map fst mapValues].
  - unfold bind. cbn [load].
    rewrite (mapValues_loop_settled r _ _ _ Hn Hres).
    unfold alloc. eexists _, _, [_]. split; [reflexivity|].
    split; [reflexivity|].
    unfold settled, answers, push, with_heap, with_n, lookup;
      cbn [heap once_n once_result reads runs].
    fold (lookup r st).
    rewrite (nth_error_lookup _ _ _ (Hcache _ _ eq_refl)).
    repeat split; try assumption; try lia.
    + now apply nth_error_extended.
    + intros r' s' [= <- <-]. apply nth_error_extended.
      now apply Hcache.
    + rewrite nth_error_app2 by lia. now rewrite Nat.sub_diag.
  - unfold alloc. eexists _, _, [_]. split; [reflexivity|].
    split; [reflexivity|].
    unfold settled, answers, push, with_heap, with_n;
      cbn [heap once_n once_result reads runs].
    repeat split; try assumption; try lia.
    + now apply nth_error_extended.
    + discriminate.
    + rewrite nth_error_app2 by lia. now rewrite Nat.sub_diag.
Qed.

(** A call that has its settings from a settled state. *)
Lemma run_call_rest files cache c st0 st :
  getSettings w st0 = (inr (option_map fst cache), st) ->
  settled w files cache st ->
  exists out st' ext,
    run_call w c st0 = (out, st') /\
    heap st' = (heap st ++ ext)%list /\
    settled w files cache st' /\
    answers cache c out st'.
Proof.
  intros E Hs. destruct c as [name|]; cbn [run_call].
  - unfold get. unfold bind at 1. rewrite E.
    destruct (get_rest _ _ name _ Hs) as (v & -> & Ha).
    exists (Value v), st, []. rewrite app_nil_r.
    split; [reflexivity | split; [reflexivity | split; assumption]].
  - unfold getAll. unfold bind at 1. rewrite E.
    destruct (mapValues_settled _ _ _ Hs) as (r' & st' & ext & -> & H).
    now exists (Mapping r'), st', ext.
Qed.

(** A call in a settled process neither reads a file nor runs the merge
    nor throws; it only adds objects to the store. *)
Lemma run_call_settled files cache c st :
  settled w files cache st ->
  exists out st' ext,
    run_call w c st = (out, st') /\
    heap st' = (heap st ++ ext)%list /\
    settled w files cache st' /\
    answers cache c out st'.
Proof.
  intros Hs. pose proof Hs as (Hn & _ & _ & Hres & _).
  apply (run_call_rest files cache c st (with_n (once_n st - 1) st)).
  - rewrite (getSettings_settled _ Hn). now rewrite Hres.
  - apply settled_with_n; [exact Hs | lia].
Qed.

Lemma run_calls_settled files cache cs st :
  settled w files cache st ->
  exists ext,
    heap (snd (run_calls w cs st)) = (heap st ++ ext)%list /\
    settled w files cache (snd (run_calls w cs st)) /\
    Forall2 (fun c out => answers cache c out (snd (run_calls w cs st)))
      cs (fst (run_calls w cs st)).
Proof.
  revert st. induction cs as [|c cs IH]; intros st Hs; simpl.
  - exists []. rewrite app_nil_r.
    split; [reflexivity | split; [exact Hs | constructor]].
  - destruct (run_call_settled _ _ c _ Hs)
      as (out & st' & ext & E & Hh & Hs' & Ha).
    rewrite E. destruct (IH _ Hs') as (ext' & Hh' & Hs'' & Hall).
    destruct (run_calls w cs st') as [outs st'']. simpl in *.
    exists (ext ++ ext')%list. split; [|split].
    + now rewrite Hh', Hh, app_assoc.
    + exact Hs''.
    + constructor; [|exact Hall].
      now apply (answers_extended _ _ _ _ _ _ Hh').
Qed.

End SettledFacts.

(** ** The first call *)

Section FirstCall.

Variable w : world.

Lemma getSettings_first_ok (sources : list object) :
  config_sources w = inr sources ->
  exists st1,
    getSettings w (initial_state w) = (inr (Some 1), st1) /\
    settled w (all_paths w) (Some (1, merge_all sources)) st1.
Proof.
  intros Hsrc. destruct (computeSettings_ok w sources Hsrc) as [h E].
  unfold getSettings, bind, decrement_n.
  change (with_n (once_n (initial_state w) - 1) (initial_state w))
    with (started w).
  change (0 <? once_n (initial_state w) - 1)%Z with true. cbv iota.
  unfold bind. rewrite E. eexists. split; [reflexivity|].
  unfold settled, set_result, with_result;
    cbn [heap once_n once_result reads runs option_map fst].
  repeat split; try reflexivity; try lia.
  now intros r settings [= <- <-].
Qed.

Lemma getSettings_first_err (e : js_error) :
  config_sources w = inl e ->
  exists st1,
    getSettings w (initial_state w) = (inl e, st1) /\
    settled w (firstn (files_read w) (all_paths w)) None st1.
Proof.
  intros Hsrc. destruct (computeSettings_err w e Hsrc) as [h E].
  unfold getSettings, bind, decrement_n.
  change (with_n (once_n (initial_state w) - 1) (initial_state w))
    with (started w).
  change (0 <? once_n (initial_state w) - 1)%Z with true. cbv iota.
  unfold bind. rewrite E. eexists. split; [reflexivity|].
  unfold settled; cbn [heap once_n once_result reads runs option_map].
  repeat split; try reflexivity; try lia. discriminate.
Qed.

(** The first call either settles the process on the merged sources or
    throws the error of the first file that fails, and settles it on
    nothing. *)
Lemma first_call (c : call) :
  match config_sources w with
  | inr sources =>
      exists out st1,
        run_call w c (initial_state w) = (out, st1) /\
        settled w (all_paths w) (Some (1, merge_all sources)) st1 /\
        answers (Some (1, merge_all sources)) c out st1
  | inl e =>
      exists st1,
        run_call w c (initial_state w) = (Thrown e, st1) /\
        settled w (firstn (files_read w) (all_paths w)) None st1
  end.
Proof.
  destruct (config_sources w) as [e|sources] eqn:Hsrc.
  - destruct (getSettings_first_err e Hsrc) as (st1 & E & Hs).
    exists st1. split; [|exact Hs].
    destruct c; cbn [run_call]; unfold get, getAll, bind; now rewrite E.
  - destruct (getSettings_first_ok sources Hsrc) as (st1 & E & Hs).
    destruct (run_call_rest w _ (Some (1, merge_all sources)) c _ _ E Hs)
      as (out & st' & ext & E' & _ & Hs' & Ha).
    now exists out, st'.
Qed.

Lemma files_read_ok (sources : list object) :
  config_sources w = inr sources -> files_read w = 4.
Proof.
  unfold config_sources, files_read.
  destruct (read_source w (userLegacy (paths w))); [discriminate|].
  destruct (read_source w (user (paths w))); [discriminate|].
  destruct (read_source w (projectLegacy (paths w))); [discriminate|].
  reflexivity.
Qed.

(** Every process that has served a call is settled. *)
Lemma run_calls_first (c : call) (cs : list call) :
  exists cache,
    settled w (firstn (files_read w) (all_paths w)) cache
      (snd (run_calls w (c :: cs) (initial_state w))).
Proof.
  cbn [run_calls]. pose proof (first_call c) as H.
  destruct (config_sources w) as [e|sources] eqn:Hsrc.
  - destruct H as (st1 & -> & Hs).
    destruct (run_calls_settled w _ _ cs _ Hs) as (ext & _ & Hs' & _).
    destruct (run_calls w cs st1). now exists None.
  - destruct H as (out & st1 & -> & Hs & _).
    rewrite (files_read_ok _ Hsrc).
    destruct (run_calls_settled w _ _ cs _ Hs) as (ext & _ & Hs' & _).
    destruct (run_calls w cs st1). now exists (Some (1, merge_all sources)).
Qed.

End FirstCall.

(** ** The source reader *)

(** C6: when the file does not exist, the source reader returns an empty
    mapping and does not throw; the file system was asked once. *)
Theorem readConfigFile_missing (w : world) (path : string) (st : state) :
  fs w path = Missing ->
  exists r st',
    readConfigFile w path st = (inr r, st') /\
    lookup r st' = [] /\
    reads st' = (reads st ++ [path])%list.
Proof.
  intros H. rewrite readConfigFile_eq. unfold read_source. rewrite H.
  eexists _, _. split; [reflexivity|]. split; [|reflexivity].
  unfold lookup, push, logged, with_heap, with_reads; cbn [heap].
  now rewrite app_nth2, Nat.sub_diag by lia.
Qed.

Lemma readConfigFile_missing_witness :
  exists r st',
    readConfigFile Sample.layered Sample.cwd_current
      (initial_state Sample.layered) = (inr r, st') /\
    lookup r st' = [] /\
    reads st' = [Sample.cwd_current].
Proof.
  apply (readConfigFile_missing Sample.layered Sample.cwd_current
           (initial_state Sample.layered)).
  reflexivity.
Defined.

(** C7: when the file exists and its content does not parse, the source
    reader throws an error whose message holds the path of the file and the
    message of the parser; no mapping is returned and none is stored. *)
Theorem readConfigFile_parse_error
    (w : world) (path contents : string) (error : js_error) (st : state) :
  fs w path = Regular contents ->
  yaml_parse w contents = inl error ->
  exists thrown st',
    readConfigFile w path st = (inl thrown, st') /\
    message thrown =
      "Error parsing config file " ++ path ++ ": " ++ message error /\
    Str.occurs path (message thrown) /\
    Str.occurs (message error) (message thrown) /\
    heap st' = heap st.
Proof.
  intros Hfile Hparse. rewrite readConfigFile_eq. unfold read_source.
  rewrite Hfile, Hparse. eexists _, _. split; [reflexivity|].
  cbn [parse_error message]. split; [reflexivity|]. split; [|split].
  - now exists "Error parsing config file ", (": " ++ message error).
  - exists ("Error parsing config file " ++ path ++ ": "), "".
    now rewrite StrFacts.append_nil_r, !StrFacts.append_assoc.
  - reflexivity.
Qed.

Lemma readConfigFile_parse_error_witness :
  exists thrown st',
    readConfigFile Sample.broken Sample.home_current
      (initial_state Sample.broken) = (inl thrown, st') /\
    message thrown =
      "Error parsing config file " ++ Sample.home_current ++ ": " ++
      "bad indentation of a mapping entry" /\
    Str.occurs Sample.home_current (message thrown) /\
    Str.occurs "bad indentation of a mapping entry" (message thrown) /\
    heap st' = heap (initial_state Sample.broken).
Proof.
  apply (readConfigFile_parse_error Sample.broken Sample.home_current
           "balenaUrl: ["
           {| code := None; message := "bad indentation of a mapping entry" |}
           (initial_state Sample.broken)).
  - reflexivity.
  - reflexivity.
Defined.

(** ** The accessors *)

(** C4: for a name that is not in the resolved configuration, [get]
    returns [undefined] and does not throw. *)
Theorem get_unknown_name
    (w : world) (name : string) (st : state) (r : ref) (st1 : state) :
  getSettings w st = (inr (Some r), st1) ->
  obj_get name (lookup r st1) = None ->
  get w name st = (inr VUndefined, st1).
Proof.
  intros Hsettings Habsent. unfold get. unfold bind at 1.
  rewrite Hsettings. unfold bind, load, ret, evaluateSetting.
  now rewrite Habsent.
Qed.

Lemma get_unknown_name_witness :
  get Sample.layered "noSuchSetting" (initial_state Sample.layered) =
  (inr VUndefined,
   snd (getSettings Sample.layered (initial_state Sample.layered))).
Proof.
  apply (get_unknown_name Sample.layered "noSuchSetting"
           (initial_state Sample.layered) 1).
  - vm_compute. reflexivity.
  - vm_compute. reflexivity.
Defined.

(** ** The memoized merge *)


Lemma run_call_getAll (w : world) (st : state) (out : outcome) (st' : state) :
  run_call w GetAll st = (out, st') ->
  match out with
  | Mapping r => getAll w st = (inr r, st')
  | Thrown e => getAll w st = (inl e, st')
  | Value _ => False
  end.
Proof.
  cbn [run_call]. destruct (getAll w st) as [[e|r] s]; now intros [= <- <-].
Qed.



(** C9: the defaults mapping is never changed, whatever the calls. *)
Theorem defaults_never_mutated (w : world) (cs : list call) :
  lookup defaults_ref (snd (run_calls w cs (initial_state w))) = defaults w.
Proof.
  destruct cs as [|c cs]; [reflexivity|].
  destruct (run_calls_first w c cs) as [cache (_ & _ & _ & _ & Hdef & _)].
  now apply nth_error_lookup.
Qed.

(** C5, as stated, fails: after a first call that threw, a second call
    does not run the merge again. With a user file that does not parse,
    the first [getAll] throws the parse error; the second reads no file,
    throws nothing and returns an empty mapping. *)
Lemma failed_merge_is_not_retried :
  fst (run_calls Sample.broken [GetAll; GetAll] (initial_state Sample.broken)) =
  [Thrown {| code := None;
             message := "Error parsing config file /home/user/.balenarc.yml: bad indentation of a mapping entry" |};
   Mapping 4] /\
  lookup 4 (snd (run_calls Sample.broken [GetAll; GetAll]
                   (initial_state Sample.broken))) = [] /\
  reads (snd (run_calls Sample.broken [GetAll] (initial_state Sample.broken)))
  = [Sample.home_legacy; Sample.home_current] /\
  reads (snd (run_calls Sample.broken [GetAll; GetAll]
                (initial_state Sample.broken)))
  = [Sample.home_legacy; Sample.home_current].
Proof. repeat split; vm_compute; reflexivity. Qed.

(** C5, amended: when the merge fails, the error of the failing source
    surfaces to the first caller and the cache is not populated; a later
    call to [get] or [getAll] does not run the computation again: no
    source is read again and the merge is not run a second time. *)
Theorem failed_merge_spends_once
    (w : world) (c : call) (e : js_error) (st1 : state) (cs : list call) :
  run_call w c (initial_state w) = (Thrown e, st1) ->
  config_sources w = inl e /\
  once_result st1 = None /\
  runs st1 = 1 /\
  let st2 := snd (run_calls w cs st1) in
  reads st2 = reads st1 /\
  runs st2 = 1.
Proof.
  intros Hfirst. pose proof (first_call w c) as H.
  destruct (config_sources w) as [e'|sources].
  - destruct H as (st1' & E & Hs). rewrite Hfirst in E.
    injection E as <- <-.
    destruct (run_calls_settled w _ _ cs _ Hs) as (ext & _ & Hs2 & _).
    pose proof Hs as (_ & Hr1 & Hn1 & Hc1 & _).
    pose proof Hs2 as (_ & Hr2 & Hn2 & _).
    split; [reflexivity|]. split; [exact Hc1|]. split; [exact Hn1|].
    cbv zeta. split; [congruence | exact Hn2].
  - destruct H as (out & st1' & E & Hs & Ha). rewrite Hfirst in E.
    injection E as <- <-. now destruct c.
Qed.

Lemma failed_merge_spends_once_witness :
  config_sources Sample.broken =
    inl {| code := None;
           message := "Error parsing config file /home/user/.balenarc.yml: bad indentation of a mapping entry" |} /\
  once_result (snd (run_call Sample.broken GetAll (initial_state Sample.broken)))
    = None.
Proof.
  refine (let H := failed_merge_spends_once Sample.broken GetAll
             {| code := None;
                message := "Error parsing config file /home/user/.balenarc.yml: bad indentation of a mapping entry" |}
             (snd (run_call Sample.broken GetAll (initial_state Sample.broken)))
             [GetAll] _ in conj (proj1 H) (proj1 (proj2 H))).
  vm_compute. reflexivity.
Defined.

(** ** Precedence *)

Section Precedence.

Variable w : world.

Ltac no_occurrence H pre :=
  repeat (destruct pre as [|? pre]; cbn [append] in H;
          [discriminate H | injection H as _ H]);
  destruct pre; discriminate H.

Lemma normalize_key_to_balenaDataDirectory (k : string) :
  normalize_key k = "balenaDataDirectory" ->
  k = "balenaDataDirectory" \/ k = "resinDataDirectory".
Proof.
  intros H. destruct (Str.includes "resin" k) eqn:E.
  - destruct (normalize_key_present k E) as (pre & post & Hk & Hn & _).
    rewrite Hn in H. right.
    destruct pre as [|c pre]; cbn [append] in H.
    + injection H as ->. exact Hk.
    + exfalso. injection H as _ H. no_occurrence H pre.
  - left. now rewrite <- (normalize_key_absent k E).
Qed.

Lemma normalize_key_never_resinDataDirectory (k : string) :
  normalize_key k <> "resinDataDirectory".
Proof.
  intros H. destruct (Str.includes "resin" k) eqn:E.
  - destruct (normalize_key_present k E) as (pre & post & _ & Hn & _).
    rewrite Hn in H. no_occurrence H pre.
  - rewrite (normalize_key_absent k E) in H. subst k. discriminate E.
Qed.

(** A legacy mapping with [resinDataDirectory] and without
    [balenaDataDirectory] is normalized to one with the value under
    [balenaDataDirectory]. *)
Lemma replaceResinKeys_dataDirectory (legacy : object) (v : value) :
  well_formed legacy = true ->
  obj_get "resinDataDirectory" legacy = Some v ->
  obj_get "balenaDataDirectory" legacy = None ->
  obj_get "balenaDataDirectory" (replaceResinKeys legacy) = Some v /\
  obj_get "resinDataDirectory" (replaceResinKeys legacy) = None.
Proof.
  intros Hwf Hget Hnone. split.
  - apply (mapKeys_unique (fun _ key => normalize_key key)
             "resinDataDirectory" v legacy Hwf Hget).
    intros k' v' Hin E.
    change (normalize_key "resinDataDirectory") with "balenaDataDirectory" in E.
    apply normalize_key_to_balenaDataDirectory in E as [->|E]; [|exact E].
    apply obj_get_None in Hnone. exfalso. apply Hnone.
    now apply (in_map fst) in Hin.
  - apply obj_get_None. intros Hin.
    apply replaceResinKeys_keys in Hin as (k & _ & E).
    now apply normalize_key_never_resinDataDirectory in E.
Qed.

Lemma config_sources_ok (ul u pl p : object) :
  read_source w (userLegacy (paths w)) = inr ul ->
  read_source w (user (paths w)) = inr u ->
  read_source w (projectLegacy (paths w)) = inr pl ->
  read_source w (project (paths w)) = inr p ->
  config_sources w =
  inr [defaults w; replaceResinKeys ul; u; replaceResinKeys pl; p;
       environment_parse w (process_env w)].
Proof. intros H1 H2 H3 H4. unfold config_sources. now rewrite H1, H2, H3, H4. Qed.

(** Whatever calls came before, [getSettings] hands out the merge of the
    sources. *)
Lemma getSettings_reachable (sources : list object) (cs : list call) :
  config_sources w = inr sources ->
  exists st',
    getSettings w (snd (run_calls w cs (initial_state w))) =
    (inr (Some 1), st') /\
    lookup 1 st' = merge_all sources.
Proof.
  intros Hsrc. destruct cs as [|c cs].
  - destruct (getSettings_first_ok w sources Hsrc) as (st1 & E & Hs).
    exists st1. split; [exact E|].
    apply nth_error_lookup. now apply Hs.
  - cbn [run_calls]. pose proof (first_call w c) as H. rewrite Hsrc in H.
    destruct H as (out & st1 & -> & Hs & _).
    destruct (run_calls_settled w _ _ cs _ Hs) as (ext & _ & Hs' & _).
    destruct (run_calls w cs st1) as [outs st]. cbn [snd] in *.
    pose proof Hs' as (Hn & _ & _ & Hres & _ & Hcache).
    rewrite (getSettings_settled w _ Hn), Hres. eexists. split; [reflexivity|].
    apply nth_error_lookup. unfold with_n; cbn [heap]. now apply Hcache.
Qed.

Lemma evaluateSetting_plain (settings : object) (key : string) (v : value) :
  obj_get key settings = Some v ->
  (forall alias, v = VStr alias -> obj_get alias settings = None) ->
  evaluateSetting settings key = v.
Proof.
  intros Hget Hplain. unfold evaluateSetting. rewrite Hget.
  destruct v; try reflexivity. now rewrite (Hplain s eq_refl).
Qed.

End Precedence.

(** How the merge treats one key, source by source. *)
Section MergeByKey.

Implicit Types (key : string) (v : value) (below above : list object).

Lemma merge_value_unless_both (old : option value) v :
  both_objects old v = false -> merge_value old v = v.
Proof.
  destruct v; try reflexivity.
  destruct old as [[]|]; try reflexivity. discriminate.
Qed.

Lemma merged_undefining key above (start : option value) :
  (forall s, In s above -> obj_get key s = None) ->
  merged key above start = start.
Proof.
  unfold merged. revert start.
  induction above as [|s above IH]; intros start Hnone; simpl.
  - reflexivity.
  - rewrite (Hnone s) by now left. apply IH. intros s' Hin.
    apply Hnone. now right.
Qed.

Lemma highest_undefining key above (start : option value) :
  (forall s, In s above -> obj_get key s = None) ->
  fold_left
    (fun acc source =>
       match obj_get key source with
       | Some v => Some v
       | None => acc
       end) above start = start.
Proof.
  revert start. induction above as [|s above IH]; intros start Hnone; simpl.
  - reflexivity.
  - rewrite (Hnone s) by now left. apply IH. intros s' Hin.
    apply Hnone. now right.
Qed.

(** The highest source that defines a key merges its value into what the
    sources below it have left. *)
Lemma merged_split key below (top : object) above v :
  obj_get key top = Some v ->
  (forall s, In s above -> obj_get key s = None) ->
  merged key (below ++ top :: above)%list None =
  Some (merge_value (merged key below None) v).
Proof.
  intros Htop Hnone. unfold merged at 1. rewrite fold_left_app.
  cbn [fold_left]. rewrite Htop.
  now apply (merged_undefining key above).
Qed.

Lemma highest_split key below (top : object) above v :
  obj_get key top = Some v ->
  (forall s, In s above -> obj_get key s = None) ->
  highest key (below ++ top :: above)%list = Some v.
Proof.
  intros Htop Hnone. unfold highest. rewrite fold_left_app.
  cbn [fold_left]. rewrite Htop.
  now apply (highest_undefining key above).
Qed.

End MergeByKey.

(** C1, as stated, fails on two counts. In [Sample.nested] the user file
    and the project file both define [proxy] as a mapping: the source of
    highest precedence holds [{port: 8080}], yet [get] returns the two
    mappings merged key by key. In [Sample.redirected] the defaults and
    the user file both define [balenaUrl]: the user file, the higher of
    the two, holds the string [dataDirectory], which names another
    setting, and [get] returns the value of that setting. *)
Lemma get_is_not_always_highest_value :
  match config_sources Sample.nested with
  | inr sources =>
      obj_get "proxy" (nth 2 sources []) = Some (VObj [("host", VStr "h")]) /\
      obj_get "proxy" (nth 4 sources []) = Some (VObj [("port", VNum 8080)]) /\
      highest "proxy" sources = Some (VObj [("port", VNum 8080)])
  | inl _ => False
  end /\
  fst (get Sample.nested "proxy" (initial_state Sample.nested)) =
    inr (VObj [("host", VStr "h"); ("port", VNum 8080)]) /\
  match config_sources Sample.redirected with
  | inr sources =>
      obj_get "balenaUrl" (nth 0 sources []) = Some (VStr "balena-cloud.com") /\
      obj_get "balenaUrl" (nth 2 sources []) = Some (VStr "dataDirectory") /\
      highest "balenaUrl" sources = Some (VStr "dataDirectory")
  | inl _ => False
  end /\
  fst (get Sample.redirected "balenaUrl" (initial_state Sample.redirected)) =
    inr (VStr "/opt/cache/balena").
Proof. repeat split; vm_compute; reflexivity. Qed.

(** C1, amended: the resolved configuration is the merge, into an empty
    mapping, of the defaults, the normalized legacy user file, the user
    file, the normalized legacy project file, the project file and the
    environment mapping, in this order. For every key, whichever of the
    six sources define it, the resolved configuration holds the value of
    the highest source that defines it, unless that value and the value
    that the sources below have left under the key are both nested
    mappings, which are merged key by key; and [get] of the key, at any
    point of the process, returns the value the resolved configuration
    holds, unless that is a string that names another setting, which
    [get] resolves. *)
Theorem get_highest_precedence
    (w : world) (ul u pl p : object) (cs : list call) :
  read_source w (userLegacy (paths w)) = inr ul ->
  read_source w (user (paths w)) = inr u ->
  read_source w (projectLegacy (paths w)) = inr pl ->
  read_source w (project (paths w)) = inr p ->
  let sources :=
    [defaults w; replaceResinKeys ul; u; replaceResinKeys pl; p;
     environment_parse w (process_env w)] in
  let st := snd (run_calls w cs (initial_state w)) in
  exists st',
    getSettings w st = (inr (Some 1), st') /\
    lookup 1 st' = merge_all sources /\
    (forall key,
        get w key st = (inr (evaluateSetting (merge_all sources) key), st')) /\
    (forallb well_formed sources = true ->
     forall key below top above v,
       sources = (below ++ top :: above)%list ->
       obj_get key top = Some v ->
       (forall s, In s above -> obj_get key s = None) ->
       highest key sources = Some v /\
       obj_get key (merge_all sources) =
         Some (merge_value (merged key below None) v) /\
       (both_objects (merged key below None) v = false ->
        obj_get key (merge_all sources) = Some v /\
        ((forall alias, v = VStr alias ->
                        obj_get alias (merge_all sources) = None) ->
         get w key st = (inr v, st')))).
Proof.
  intros H1 H2 H3 H4 sources st.
  pose proof (config_sources_ok w ul u pl p H1 H2 H3 H4) as Hsrc.
  fold sources in Hsrc.
  destruct (getSettings_reachable w sources cs Hsrc) as (st' & E & Hl).
  fold st in E.
  assert (Hcall : forall key,
             get w key st =
             (inr (evaluateSetting (merge_all sources) key), st')).
  { intros key. unfold get. unfold bind at 1. rewrite E.
    unfold bind, load, ret. now rewrite Hl. }
  exists st'. split; [exact E|]. split; [exact Hl|]. split; [exact Hcall|].
  intros Hwf key below top above v Hsplit Htop Hnone.
  assert (Hget : obj_get key (merge_all sources) =
                 Some (merge_value (merged key below None) v)).
  { unfold merge_all. rewrite (merge_all_get key sources [] Hwf).
    cbn [obj_get]. rewrite Hsplit. now apply merged_split. }
  split; [rewrite Hsplit; now apply highest_split|].
  split; [exact Hget|].
  intros Hboth. rewrite (merge_value_unless_both _ _ Hboth) in Hget.
  split; [exact Hget|].
  intros Hplain. rewrite Hcall.
  now rewrite (evaluateSetting_plain _ _ _ Hget Hplain).
Qed.

Lemma get_highest_precedence_witness :
  exists st',
    getSettings Sample.layered
      (snd (run_calls Sample.layered [GetAll] (initial_state Sample.layered)))
    = (inr (Some 1), st') /\
    obj_get "balenaUrl" (lookup 1 st') = Some (VStr "balena-staging.com") /\
    get Sample.layered "balenaUrl"
      (snd (run_calls Sample.layered [GetAll] (initial_state Sample.layered)))
    = (inr (VStr "balena-staging.com"), st').
Proof.
  destruct (get_highest_precedence Sample.layered
              [("resinDataDirectory", VStr "/legacy")]
              [("balenaUrl", VStr "balena-staging.com")] [] [] [GetAll]
              eq_refl eq_refl eq_refl eq_refl)
    as (st' & E & Hl & _ & H).
  destruct (H eq_refl "balenaUrl"
              [Sample.sample_defaults;
               replaceResinKeys [("resinDataDirectory", VStr "/legacy")]]
              [("balenaUrl", VStr "balena-staging.com")]
              [replaceResinKeys []; [];
               [("dataDirectory", VStr "/opt/cache/balena")]]
              (VStr "balena-staging.com") eq_refl eq_refl)
    as (_ & _ & Hv).
  { intros s [<-|[<-|[<-|[]]]]; reflexivity. }
  destruct (Hv eq_refl) as (Hget & Hplain).
  exists st'. split; [exact E|]. split.
  - rewrite Hl. exact Hget.
  - apply Hplain. intros alias [= <-]. vm_compute. reflexivity.
Defined.

(** C8: the key normalizer is applied to the legacy user file and to the
    legacy project file and to nothing else. The resolved configuration
    is the merge of the defaults, the normalized legacy user file, the
    user file as read, the normalized legacy project file, the project
    file as read and the environment mapping as parsed. A legacy file
    with [resinDataDirectory] (and no [balenaDataDirectory] of its own)
    enters the merge with the value under [balenaDataDirectory] and
    without [resinDataDirectory]; a literal [resinDataDirectory] of a
    current file, or of the environment mapping, stays under that name in
    the resolved configuration. *)
Theorem normalization_on_legacy_sources_only
    (w : world) (ul u pl p : object) :
  read_source w (userLegacy (paths w)) = inr ul ->
  read_source w (user (paths w)) = inr u ->
  read_source w (projectLegacy (paths w)) = inr pl ->
  read_source w (project (paths w)) = inr p ->
  let env := environment_parse w (process_env w) in
  let sources :=
    [defaults w; replaceResinKeys ul; u; replaceResinKeys pl; p; env] in
  forallb well_formed (ul :: pl :: sources) = true ->
  exists st1,
    getSettings w (initial_state w) = (inr (Some 1), st1) /\
    let settings := lookup 1 st1 in
    (forall key, obj_get key settings = merged key sources None) /\
    (forall legacy v,
        legacy = ul \/ legacy = pl ->
        obj_get "resinDataDirectory" legacy = Some v ->
        obj_get "resinDataDirectory" (replaceResinKeys legacy) = None /\
        In "balenaDataDirectory" (keys (replaceResinKeys legacy)) /\
        (obj_get "balenaDataDirectory" legacy = None ->
         obj_get "balenaDataDirectory" (replaceResinKeys legacy) = Some v)) /\
    (forall v,
        is_object v = false ->
        obj_get "resinDataDirectory" ul = Some v ->
        obj_get "balenaDataDirectory" ul = None ->
        obj_get "balenaDataDirectory" u = None ->
        obj_get "balenaDataDirectory" (replaceResinKeys pl) = None ->
        obj_get "balenaDataDirectory" p = None ->
        obj_get "balenaDataDirectory" env = None ->
        obj_get "balenaDataDirectory" settings = Some v) /\
    (forall v,
        is_object v = false ->
        obj_get "resinDataDirectory" pl = Some v ->
        obj_get "balenaDataDirectory" pl = None ->
        obj_get "balenaDataDirectory" p = None ->
        obj_get "balenaDataDirectory" env = None ->
        obj_get "balenaDataDirectory" settings = Some v) /\
    (forall v,
        is_object v = false ->
        obj_get "resinDataDirectory" u = Some v ->
        obj_get "resinDataDirectory" p = None ->
        obj_get "resinDataDirectory" env = None ->
        obj_get "resinDataDirectory" settings = Some v) /\
    (forall v,
        is_object v = false ->
        obj_get "resinDataDirectory" p = Some v ->
        obj_get "resinDataDirectory" env = None ->
        obj_get "resinDataDirectory" settings = Some v) /\
    (forall v,
        is_object v = false ->
        obj_get "resinDataDirectory" env = Some v ->
        obj_get "resinDataDirectory" settings = Some v).
Proof.
  intros H1 H2 H3 H4 env sources Hwf.
  pose proof (config_sources_ok w ul u pl p H1 H2 H3 H4) as Hsrc.
  fold env sources in Hsrc.
  destruct (getSettings_reachable w sources [] Hsrc) as (st1 & E & Hl).
  cbn [run_calls snd] in E. exists st1. split; [exact E|]. cbv zeta.
  rewrite Hl.
  cbn [forallb] in Hwf.
  apply andb_true_iff in Hwf as [Hul Hwf].
  apply andb_true_iff in Hwf as [Hpl Hwf].
  assert (Hmerged : forall key,
             obj_get key (merge_all sources) = merged key sources None).
  { intros key. unfold merge_all.
    now rewrite (merge_all_get key sources [] Hwf). }
  assert (Hlegacy : forall legacy v,
             legacy = ul \/ legacy = pl ->
             obj_get "resinDataDirectory" legacy = Some v ->
             obj_get "balenaDataDirectory" legacy = None ->
             obj_get "balenaDataDirectory" (replaceResinKeys legacy) = Some v /\
             obj_get "resinDataDirectory" (replaceResinKeys legacy) = None).
  { intros legacy v [->| ->]; now apply replaceResinKeys_dataDirectory. }
  assert (Hnever : forall legacy,
             obj_get "resinDataDirectory" (replaceResinKeys legacy) = None).
  { intros legacy. apply obj_get_None. intros Hin.
    apply replaceResinKeys_keys in Hin as (k & _ & Ek).
    now apply normalize_key_never_resinDataDirectory in Ek. }
  split; [exact Hmerged|]. split.
  { intros legacy v Hwhich Hget. split; [apply Hnever | split].
    - apply replaceResinKeys_keys. exists "resinDataDirectory".
      split; [now apply obj_get_Some_key in Hget | reflexivity].
    - intros Hnone. now apply (Hlegacy legacy v Hwhich Hget Hnone). }
  repeat split; intros v Hv;
    intros; rewrite Hmerged; apply merged_highest; try exact Hv;
    unfold highest, sources; cbn [fold_left].
  - destruct (Hlegacy ul v (or_introl eq_refl)) as [-> _]; try assumption.
    now repeat match goal with H : obj_get _ _ = None |- _ => rewrite H end.
  - destruct (Hlegacy pl v (or_intror eq_refl)) as [-> _]; try assumption.
    now repeat match goal with H : obj_get _ _ = None |- _ => rewrite H end.
  - rewrite (Hnever pl).
    now repeat match goal with H : obj_get _ _ = _ |- _ => rewrite H end.
  - now repeat match goal with H : obj_get _ _ = _ |- _ => rewrite H end.
  - now repeat match goal with H : obj_get _ _ = _ |- _ => rewrite H end.
Qed.

Lemma normalization_on_legacy_sources_only_witness :
  exists st1,
    getSettings Sample.layered (initial_state Sample.layered)
    = (inr (Some 1), st1) /\
    obj_get "balenaDataDirectory" (lookup 1 st1) = Some (VStr "/legacy").
Proof.
  destruct (normalization_on_legacy_sources_only Sample.layered
              [("resinDataDirectory", VStr "/legacy")]
              [("balenaUrl", VStr "balena-staging.com")] [] []
              eq_refl eq_refl eq_refl eq_refl eq_refl)
    as (st1 & E & _ & _ & H & _).
  exists st1. split; [exact E|].
  apply (H (VStr "/legacy")); reflexivity.
Defined.

(** * Further properties of the module *)

(** ** The source reader, branch by branch *)

(** X1: an error of the file system is swallowed exactly when its code is
    [ENOENT]: with that code the reader returns an empty mapping, with any
    other code (or none) it rethrows the very same error, not wrapped, and
    stores nothing. *)
Theorem readConfigFile_read_error
    (w : world) (path : string) (e : js_error) (st : state) :
  fs w path = Unreadable e ->
  (is_enoent e = false ->
   readConfigFile w path st = (inl e, logged path st)) /\
  (is_enoent e = true ->
   exists r st',
     readConfigFile w path st = (inr r, st') /\ lookup r st' = []).
Proof.
  intros Hfile. rewrite readConfigFile_eq. unfold read_source.
  rewrite Hfile. split; intros ->.
  - reflexivity.
  - eexists _, _. split; [reflexivity|].
    unfold lookup, push, logged, with_heap, with_reads; cbn [heap].
    now rewrite app_nth2, Nat.sub_diag by lia.
Qed.

Lemma readConfigFile_read_error_witness :
  readConfigFile Sample.denied Sample.home_current
    (initial_state Sample.denied) =
  (inl {| code := Some "EACCES";
          message := "EACCES: permission denied, open '/home/user/.balenarc.yml'" |},
   logged Sample.home_current (initial_state Sample.denied)).
Proof.
  apply (readConfigFile_read_error Sample.denied Sample.home_current
           {| code := Some "EACCES";
              message := "EACCES: permission denied, open '/home/user/.balenarc.yml'" |}
           (initial_state Sample.denied)).
  - reflexivity.
  - reflexivity.
Defined.

(** X2: when the file is there and parses, the reader returns the mapping
    of the parser as it is (no key is rewritten at this point), as a new
    object; the objects that were in the store are as before. *)
Theorem readConfigFile_parsed
    (w : world) (path contents : string) (parsed : object) (st : state) :
  fs w path = Regular contents ->
  yaml_parse w contents = inr parsed ->
  exists r st',
    readConfigFile w path st = (inr r, st') /\
    lookup r st' = parsed /\
    nth_error (heap st) r = None /\
    forall r' o, nth_error (heap st) r' = Some o ->
                 nth_error (heap st') r' = Some o.
Proof.
  intros Hfile Hparse. rewrite readConfigFile_eq. unfold read_source.
  rewrite Hfile, Hparse. eexists _, _. split; [reflexivity|].
  unfold lookup, push, logged, with_heap, with_reads; cbn [heap].
  split; [|split].
  - now rewrite app_nth2, Nat.sub_diag by lia.
  - apply nth_error_None. lia.
  - intros r' o. apply nth_error_extended.
Qed.

Lemma readConfigFile_parsed_witness :
  exists r st',
    readConfigFile Sample.layered Sample.home_legacy
      (initial_state Sample.layered) = (inr r, st') /\
    lookup r st' = [("resinDataDirectory", VStr "/legacy")] /\
    nth_error (heap (initial_state Sample.layered)) r = None /\
    forall r' o,
      nth_error (heap (initial_state Sample.layered)) r' = Some o ->
      nth_error (heap st') r' = Some o.
Proof.
  apply (readConfigFile_parsed Sample.layered Sample.home_legacy
           "resinDataDirectory: /legacy"
           [("resinDataDirectory", VStr "/legacy")]
           (initial_state Sample.layered)).
  - reflexivity.
  - reflexivity.
Defined.

(** X3: whatever the outcome, one call of the reader asks the file system
    once, for its own path, and leaves the memo of [_.once] alone; when it
    throws it stores nothing, and when it returns it has added one object,
    the one it returns. *)
Theorem readConfigFile_frame (w : world) (path : string) (st : state) :
  let result := fst (readConfigFile w path st) in
  let st' := snd (readConfigFile w path st) in
  reads st' = (reads st ++ [path])%list /\
  once_n st' = once_n st /\
  once_result st' = once_result st /\
  runs st' = runs st /\
  match result with
  | inl _ => heap st' = heap st
  | inr r =>
      r = List.length (heap st) /\
      exists o, heap st' = (heap st ++ [o])%list
  end.
Proof.
  cbv zeta. rewrite readConfigFile_eq.
  destruct (read_source w path) as [e|o]; cbn [fst snd];
    unfold push, logged, with_heap, with_reads;
    cbn [heap once_n once_result reads runs].
  - repeat split.
  - repeat split. now exists o.
Qed.

(** X4: the reader never throws an error with code [ENOENT]: what it
    throws is a read error with another code or a parse error, which has
    no code. *)
Theorem readConfigFile_never_throws_enoent
    (w : world) (path : string) (st : state) (e : js_error) (st' : state) :
  readConfigFile w path st = (inl e, st') -> is_enoent e = false.
Proof.
  rewrite readConfigFile_eq. unfold read_source.
  destruct (fs w path) as [|e0|contents].
  - discriminate.
  - destruct (is_enoent e0) eqn:E; [discriminate|]. now intros [= <- _].
  - destruct (yaml_parse w contents); [|discriminate].
    now intros [= <- _].
Qed.

Lemma readConfigFile_never_throws_enoent_witness :
  is_enoent
    {| code := Some "EACCES";
       message := "EACCES: permission denied, open '/home/user/.balenarc.yml'" |}
  = false.
Proof.
  apply (readConfigFile_never_throws_enoent Sample.denied Sample.home_current
           (initial_state Sample.denied) _
           (logged Sample.home_current (initial_state Sample.denied))).
  reflexivity.
Defined.

(** ** The key normalizer on whole mappings *)

Section NormalizerOnMappings.

Implicit Types (o acc : object) (k nm : string) (v : value).

Lemma obj_set_fresh k v o :
  ~ In k (keys o) -> obj_set k v o = (o ++ [(k, v)])%list.
Proof.
  induction o as [|[k0 v0] o IH]; simpl; intros Hfresh; [reflexivity|].
  destruct (String.eqb k0 k) eqn:E.
  - apply String.eqb_eq in E. exfalso. apply Hfresh. now left.
  - f_equal. apply IH. intros Hin. apply Hfresh. now right.
Qed.

Lemma keys_app (o1 o2 : object) :
  keys (o1 ++ o2)%list = (keys o1 ++ keys o2)%list.
Proof. unfold keys. apply map_app. Qed.

(** When every new name is new to the result so far, properties are only
    added, in order. *)
Lemma mapKeys_loop_fresh (f : value -> string -> string) o acc :
  (forall k v, In (k, v) o -> ~ In (f v k) (keys acc)) ->
  NoDup (map (fun p => fst (rename f p)) o) ->
  fold_left (fun result '(key, v) => obj_set (f v key) v result) o acc =
  (acc ++ map (rename f) o)%list.
Proof.
  revert acc. induction o as [|[k0 v0] o IH]; intros acc Hfresh Hd; simpl.
  - now rewrite app_nil_r.
  - inversion Hd as [|x l Hx Hd']; subst.
    rewrite obj_set_fresh by (apply Hfresh; now left).
    rewrite IH; [now rewrite <- app_assoc | | exact Hd'].
    intros k v Hin. rewrite keys_app, in_app_iff.
    intros [Hacc|[E|[]]].
    + apply (Hfresh k v); [now right | exact Hacc].
    + apply Hx. apply in_map_iff. exists (k, v).
      split; [now symmetry | exact Hin].
Qed.

Lemma NoDup_map_on (g : string -> string) (l : list string) :
  NoDup l ->
  (forall k k', In k l -> In k' l -> g k = g k' -> k = k') ->
  NoDup (map g l).
Proof.
  induction l as [|k l IH]; simpl; intros Hd Hinj; [constructor|].
  inversion Hd as [|x l' Hx Hd']; subst. constructor.
  - intros Hin. apply in_map_iff in Hin as (k' & E & Hk').
    assert (k' = k) by (apply Hinj; [now right | now left | exact E]).
    now subst.
  - apply IH; [exact Hd'|]. intros a b Ha Hb. apply Hinj; now right.
Qed.

Lemma string_length_append (a b : string) :
  String.length (a ++ b) = String.length a + String.length b.
Proof. induction a as [|c a IH]; simpl; [reflexivity | now rewrite IH]. Qed.

End NormalizerOnMappings.

(** X5: on a mapping no two keys of which normalize to the same name, the
    normalizer renames in place: the result lists the same values in the
    same order, each under its normalized key. *)
Theorem replaceResinKeys_injective (o : object) :
  well_formed o = true ->
  (forall k k', In k (keys o) -> In k' (keys o) ->
                normalize_key k = normalize_key k' -> k = k') ->
  replaceResinKeys o =
  map (fun p => (normalize_key (fst p), snd p)) o.
Proof.
  intros Hwf Hinj. unfold replaceResinKeys, mapKeys.
  rewrite mapKeys_loop_fresh.
  - reflexivity.
  - intros k v _ [].
  - replace (map (fun p => fst (rename (fun _ key => normalize_key key) p)) o)
      with (map normalize_key (keys o))
      by (unfold keys; rewrite map_map; reflexivity).
    apply NoDup_map_on; [now apply distinct_NoDup | exact Hinj].
Qed.

Lemma replaceResinKeys_injective_witness :
  replaceResinKeys
    [("resinUrl", VStr "a"); ("dataDirectory", VStr "b");
     ("resinDataDirectory", VStr "c")] =
  [("balenaUrl", VStr "a"); ("dataDirectory", VStr "b");
   ("balenaDataDirectory", VStr "c")].
Proof.
  apply (replaceResinKeys_injective
           [("resinUrl", VStr "a"); ("dataDirectory", VStr "b");
            ("resinDataDirectory", VStr "c")]).
  - reflexivity.
  - intros k k' [<-|[<-|[<-|[]]]] [<-|[<-|[<-|[]]]] E;
      try reflexivity; vm_compute in E; discriminate E.
Defined.

(** X6: a mapping none of whose keys contains the legacy substring comes
    out of the normalizer as it went in. *)
Theorem replaceResinKeys_current_mapping (o : object) :
  well_formed o = true ->
  (forall k, In k (keys o) -> Str.includes "resin" k = false) ->
  replaceResinKeys o = o.
Proof.
  intros Hwf Hnone.
  assert (Hid : forall k, In k (keys o) -> normalize_key k = k).
  { intros k Hin. apply normalize_key_absent. now apply Hnone. }
  unfold replaceResinKeys, mapKeys. rewrite mapKeys_loop_fresh.
  - cbn [app]. rewrite <- (map_id o) at 2. apply map_ext_in.
    intros [k v] Hin. unfold rename. cbn [fst snd]. f_equal.
    apply Hid. now apply (in_map fst) in Hin.
  - intros k v _ [].
  - replace (map (fun p => fst (rename (fun _ key => normalize_key key) p)) o)
      with (map normalize_key (keys o))
      by (unfold keys; rewrite map_map; reflexivity).
    apply NoDup_map_on; [now apply distinct_NoDup|].
    intros k k' Hk Hk' E. now rewrite (Hid k Hk), (Hid k' Hk') in E.
Qed.

Lemma replaceResinKeys_current_mapping_witness :
  replaceResinKeys
    [("balenaUrl", VStr "balena-staging.com"); ("dataDirectory", VStr "/d")] =
  [("balenaUrl", VStr "balena-staging.com"); ("dataDirectory", VStr "/d")].
Proof.
  apply (replaceResinKeys_current_mapping
           [("balenaUrl", VStr "balena-staging.com");
            ("dataDirectory", VStr "/d")]).
  - reflexivity.
  - intros k [<-|[<-|[]]]; reflexivity.
Defined.

(** X7: whatever mapping goes in, the normalizer invents nothing: its
    result has pairwise distinct keys, has no more properties than the
    input, and each of its properties is a property of the input under
    its normalized key. *)
Theorem replaceResinKeys_sound (o : object) :
  well_formed (replaceResinKeys o) = true /\
  List.length (replaceResinKeys o) <= List.length o /\
  forall nm v,
    In (nm, v) (replaceResinKeys o) ->
    exists k, In (k, v) o /\ normalize_key k = nm.
Proof.
  split; [|split].
  - apply mapKeys_well_formed.
  - apply (mapKeys_loop_length_le (fun _ key => normalize_key key) o []).
  - intros nm v Hin.
    apply In_obj_get in Hin; [|apply mapKeys_well_formed].
    unfold replaceResinKeys in Hin. rewrite mapKeys_get in Hin.
    apply obj_get_In, in_rev, in_map_iff in Hin as ([k0 v0] & [= <- <-] & Hin).
    now exists k0.
Qed.

(** X8: the keys that the normalizer leaves as they are are exactly the
    keys without the legacy substring; a key with it grows by one
    character. *)
Theorem normalize_key_fixed_points (k : string) :
  (normalize_key k = k <-> Str.includes "resin" k = false) /\
  (Str.includes "resin" k = true ->
   String.length (normalize_key k) = S (String.length k)).
Proof.
  assert (Hgrow : Str.includes "resin" k = true ->
                  String.length (normalize_key k) = S (String.length k)).
  { intros E. destruct (normalize_key_present k E) as (pre & post & Hk & Hn & _).
    rewrite Hn, Hk, !string_length_append. simpl. lia. }
  split; [|exact Hgrow]. split.
  - intros Hfix. destruct (Str.includes "resin" k) eqn:E; [|reflexivity].
    specialize (Hgrow eq_refl). rewrite Hfix in Hgrow. lia.
  - apply normalize_key_absent.
Qed.

(** X9: of any number of keys that normalize to one name, the value kept
    under that name is the value of the last such key in the enumeration
    order of the input. *)
Theorem replaceResinKeys_last_wins
    (before after : object) (k : string) (v : value) :
  (forall k' v', In (k', v') after -> normalize_key k' <> normalize_key k) ->
  obj_get (normalize_key k)
    (replaceResinKeys (before ++ (k, v) :: after)%list) = Some v.
Proof.
  intros Hafter. unfold replaceResinKeys.
  now apply (mapKeys_last (fun _ key => normalize_key key)).
Qed.

Lemma replaceResinKeys_last_wins_witness :
  obj_get (normalize_key "resinbalena")
    (replaceResinKeys
       ([("balenabalena", VStr "a"); ("balenaresin", VStr "b")] ++
        ("resinbalena", VStr "c") :: [("other", VStr "d")])%list)
  = Some (VStr "c").
Proof.
  apply (replaceResinKeys_last_wins
           [("balenabalena", VStr "a"); ("balenaresin", VStr "b")]
           [("other", VStr "d")] "resinbalena" (VStr "c")).
  intros k' v' [[= <- <-]|[]]. vm_compute. discriminate.
Defined.

(** ** The module as a whole *)

Section WholeModule.

Variable w : world.

Lemma merge_value_none (v : value) : merge_value None v = v.
Proof. now destruct v. Qed.

Lemma merge_into_fresh (target source : object) :
  well_formed source = true ->
  (forall k, In k (keys source) -> ~ In k (keys target)) ->
  merge_into target source = (target ++ source)%list.
Proof.
  unfold merge_into, well_formed. revert target.
  induction source as [|[k v] source IH]; intros target Hd Hfresh; simpl.
  - now rewrite app_nil_r.
  - simpl in Hd. apply andb_true_iff in Hd as [Hn Hd].
    apply negb_true_iff in Hn.
    assert (Hk : obj_get k target = None).
    { apply obj_get_None. apply Hfresh. now left. }
    rewrite Hk, merge_value_none, obj_set_fresh
      by (apply Hfresh; now left).
    rewrite IH; [now rewrite <- app_assoc | exact Hd |].
    intros k' Hin. rewrite keys_app, in_app_iff. intros [Ht|[E|[]]].
    + apply (Hfresh k'); [now right | exact Ht].
    + cbn [fst] in E. subst k'. apply existsb_eqb in Hin. congruence.
Qed.

Lemma merge_into_well_formed (target source : object) :
  well_formed target = true -> well_formed (merge_into target source) = true.
Proof.
  unfold merge_into. revert target.
  induction source as [|[k v] source IH]; intros target Hwf; simpl.
  - exact Hwf.
  - apply IH. now apply obj_set_well_formed.
Qed.

Lemma merge_all_well_formed (sources : list object) :
  well_formed (merge_all sources) = true.
Proof.
  unfold merge_all. assert (H : well_formed [] = true) by reflexivity.
  revert H. generalize (@nil (string * value)).
  induction sources as [|s sources IH]; intros acc Hacc; simpl.
  - exact Hacc.
  - apply IH. now apply merge_into_well_formed.
Qed.

Lemma evaluate_all_loop_fresh (settings o acc : object) :
  NoDup (keys o) ->
  (forall k, In k (keys o) -> ~ In k (keys acc)) ->
  evaluate_all settings o acc =
  (acc ++ map (fun p => (fst p, evaluateSetting settings (fst p))) o)%list.
Proof.
  unfold evaluate_all. revert acc.
  induction o as [|[k v] o IH]; intros acc Hd Hfresh; simpl.
  - now rewrite app_nil_r.
  - inversion Hd as [|x l Hx Hd']; subst.
    rewrite obj_set_fresh by (apply Hfresh; now left).
    rewrite IH; [now rewrite <- app_assoc | exact Hd' |].
    intros k' Hin. rewrite keys_app, in_app_iff. intros [Ht|[E|[]]].
    + apply (Hfresh k'); [now right | exact Ht].
    + now subst k'.
Qed.

(** What [getAll] builds has the keys of the settings, each with its
    evaluation. *)
Lemma evaluate_all_map (settings : object) :
  well_formed settings = true ->
  evaluate_all settings settings [] =
  map (fun p => (fst p, evaluateSetting settings (fst p))) settings.
Proof.
  intros Hwf. rewrite evaluate_all_loop_fresh.
  - reflexivity.
  - now apply distinct_NoDup.
  - intros k _ [].
Qed.

Lemma obj_get_map_values (g : string -> value) (name : string) (o : object) :
  obj_get name (map (fun p => (fst p, g (fst p))) o) =
  match obj_get name o with
  | Some _ => Some (g name)
  | None => None
  end.
Proof.
  induction o as [|[k v] o IH]; simpl; [reflexivity|].
  destruct (String.eqb k name) eqn:E; [|exact IH].
  now apply String.eqb_eq in E as ->.
Qed.

(** [getAll] in a settled process: the reference is the next free one. *)
Lemma getAll_settled_fresh (st : state) :
  (once_n st <= 1)%Z ->
  exists m n',
    getAll w st = (inr (List.length (heap st)), push m (with_n n' st)).
Proof.
  intros Hn. unfold getAll. unfold bind at 1.
  rewrite (getSettings_settled w _ Hn).
  destruct (once_result st) as [r|] eqn:Hr; cbn [mapValues].
  - unfold bind. cbn [load].
    rewrite (mapValues_loop_settled w r);
      [|unfold with_n; cbn [once_n]; lia | exact Hr].
    unfold alloc. eexists _, _. reflexivity.
  - unfold alloc. eexists _, _. reflexivity.
Qed.

Lemma getAll_reachable (sources : list object) (cs : list call) :
  config_sources w = inr sources ->
  exists r st',
    getAll w (snd (run_calls w cs (initial_state w))) = (inr r, st') /\
    settled w (all_paths w) (Some (1, merge_all sources)) st' /\
    nth_error (heap st') r =
    Some (evaluate_all (merge_all sources) (merge_all sources) []).
Proof.
  intros Hsrc.
  assert (Hfinish : forall st out st',
             run_call w GetAll st = (out, st') ->
             answers (Some (1, merge_all sources)) GetAll out st' ->
             exists r, getAll w st = (inr r, st') /\
                       nth_error (heap st') r =
                       Some (evaluate_all (merge_all sources)
                               (merge_all sources) [])).
  { intros st out st' E Ha. apply run_call_getAll in E.
    destruct out as [e|v|r]; cbn [answers] in Ha; try contradiction.
    now exists r. }
  destruct cs as [|c cs].
  - pose proof (first_call w GetAll) as H. rewrite Hsrc in H.
    destruct H as (out & st1 & E & Hs & Ha).
    destruct (Hfinish _ _ _ E Ha) as (r & Hg & Hr).
    now exists r, st1.
  - cbn [run_calls]. pose proof (first_call w c) as H. rewrite Hsrc in H.
    destruct H as (out & st1 & -> & Hs & _).
    destruct (run_calls_settled w _ _ cs _ Hs) as (ext & _ & Hs' & _).
    destruct (run_calls w cs st1) as [outs st]. cbn [snd] in *.
    destruct (run_call_settled w _ _ GetAll _ Hs')
      as (out' & st' & ext' & E & _ & Hs'' & Ha).
    destruct (Hfinish _ _ _ E Ha) as (r & Hg & Hr).
    now exists r, st'.
Qed.

End WholeModule.

(** X10: the files are read in the order legacy user file, user file,
    legacy project file, project file, and the first one that fails ends
    the merge: the first call, [get] or [getAll], throws the error of that
    file, the files after it are not read, and nothing is kept. *)
Theorem first_failing_file_aborts
    (w : world) (c : call) (k : nat) (path : string) (e : js_error) :
  nth_error (all_paths w) k = Some path ->
  (forall j earlier, j < k -> nth_error (all_paths w) j = Some earlier ->
                     exists o, read_source w earlier = inr o) ->
  read_source w path = inl e ->
  exists st1,
    run_call w c (initial_state w) = (Thrown e, st1) /\
    reads st1 = firstn (S k) (all_paths w) /\
    once_result st1 = None /\
    runs st1 = 1.
Proof.
  intros Hk Hearlier Hfail.
  assert (Hsrc : config_sources w = inl e /\ files_read w = S k).
  { unfold config_sources, files_read.
    destruct k as [|[|[|[|k]]]]; cbn [all_paths nth_error] in Hk.
    - injection Hk as <-. now rewrite Hfail.
    - injection Hk as <-.
      destruct (Hearlier 0 _ (Nat.lt_0_succ _) eq_refl) as [o0 ->].
      now rewrite Hfail.
    - injection Hk as <-.
      destruct (Hearlier 0 _ (Nat.lt_0_succ _) eq_refl) as [o0 ->].
      destruct (Hearlier 1 (user (paths w))) as [o1 ->];
        [lia | reflexivity |].
      now rewrite Hfail.
    - injection Hk as <-.
      destruct (Hearlier 0 _ (Nat.lt_0_succ _) eq_refl) as [o0 ->].
      destruct (Hearlier 1 (user (paths w))) as [o1 ->];
        [lia | reflexivity |].
      destruct (Hearlier 2 (projectLegacy (paths w))) as [o2 ->];
        [lia | reflexivity |].
      now rewrite Hfail.
    - now destruct k. }
  destruct Hsrc as [Hsrc Hn]. pose proof (first_call w c) as H.
  rewrite Hsrc, Hn in H. destruct H as (st1 & E & _ & Hr & Hruns & Hres & _).
  exists st1. now repeat split.
Qed.

Lemma first_failing_file_aborts_witness :
  exists st1,
    run_call Sample.denied (Get "balenaUrl") (initial_state Sample.denied) =
    (Thrown {| code := Some "EACCES";
               message := "EACCES: permission denied, open '/home/user/.balenarc.yml'" |},
     st1) /\
    reads st1 = [Sample.home_legacy; Sample.home_current] /\
    once_result st1 = None /\
    runs st1 = 1.
Proof.
  apply (first_failing_file_aborts Sample.denied (Get "balenaUrl") 1
           Sample.home_current).
  - reflexivity.
  - intros j earlier Hj. destruct j as [|j]; [|lia].
    intros [= <-]. now exists [].
  - reflexivity.
Defined.

(** X11: [getAll] and [get] agree. When the files read fine then, at any
    point of the process, the mapping of [getAll] has exactly the keys of
    the resolved configuration, in their order, and under each of them
    the value that [get] returns for that name. *)
Theorem getAll_agrees_with_get
    (w : world) (sources : list object) (cs : list call) :
  config_sources w = inr sources ->
  exists r st',
    getAll w (snd (run_calls w cs (initial_state w))) = (inr r, st') /\
    once_result st' = Some 1 /\
    keys (lookup r st') = keys (lookup 1 st') /\
    forall name v,
      obj_get name (lookup r st') = Some v ->
      exists st'', get w name st' = (inr v, st'').
Proof.
  intros Hsrc.
  destruct (getAll_reachable w sources cs Hsrc) as (r & st' & E & Hs & Hr).
  exists r, st'. split; [exact E|].
  pose proof Hs as (Hn & _ & _ & Hres & _ & Hcache).
  rewrite (nth_error_lookup _ _ _ Hr),
    (nth_error_lookup _ _ _ (Hcache _ _ eq_refl)).
  rewrite (evaluate_all_map _ (merge_all_well_formed sources)).
  split; [exact Hres | split].
  - unfold keys. rewrite map_map. reflexivity.
  - intros name v Hget. rewrite obj_get_map_values in Hget.
    rewrite (get_settled w name _ Hn), Hres. cbn [option_map fst].
    rewrite (nth_error_lookup _ _ _ (Hcache _ _ eq_refl)).
    destruct (obj_get name (merge_all sources)); [|discriminate].
    injection Hget as <-. eexists. reflexivity.
Qed.

Lemma getAll_agrees_with_get_witness :
  exists r st',
    getAll Sample.layered
      (snd (run_calls Sample.layered [Get "balenaUrl"]
              (initial_state Sample.layered))) = (inr r, st') /\
    once_result st' = Some 1 /\
    keys (lookup r st') = keys (lookup 1 st') /\
    forall name v,
      obj_get name (lookup r st') = Some v ->
      exists st'', get Sample.layered name st' = (inr v, st'').
Proof.
  apply (getAll_agrees_with_get Sample.layered
           [Sample.sample_defaults;
            replaceResinKeys [("resinDataDirectory", VStr "/legacy")];
            [("balenaUrl", VStr "balena-staging.com")];
            replaceResinKeys []; [];
            [("dataDirectory", VStr "/opt/cache/balena")]]
           [Get "balenaUrl"]).
  reflexivity.
Defined.

(** X12: once a first call has been served, every [getAll] returns a new
    object: its reference is none that was in use, so it is neither the
    defaults nor the mapping kept by [getSettings], and all objects that
    were in the store, the kept mapping among them, are as before. *)
Theorem getAll_returns_new_object (w : world) (c : call) (cs : list call) :
  let st := snd (run_calls w (c :: cs) (initial_state w)) in
  exists r st',
    getAll w st = (inr r, st') /\
    nth_error (heap st) r = None /\
    r <> defaults_ref /\
    once_result st <> Some r /\
    once_result st' = once_result st /\
    forall r' o, nth_error (heap st) r' = Some o ->
                 nth_error (heap st') r' = Some o.
Proof.
  intros st. destruct (run_calls_first w c cs) as [cache Hs]. fold st in Hs.
  destruct Hs as (Hn & _ & _ & Hres & Hdef & Hcache).
  destruct (getAll_settled_fresh w st Hn) as (m & n' & E).
  exists (List.length (heap st)), (push m (with_n n' st)).
  assert (Hnew : nth_error (heap st) (List.length (heap st)) = None)
    by (apply nth_error_None; lia).
  split; [exact E|]. split; [exact Hnew|]. split; [|split; [|split]].
  - intros Hr. rewrite Hr in Hnew. congruence.
  - rewrite Hres. destruct cache as [[r settings]|]; [|discriminate].
    intros [= Hr]. cbn [fst] in Hr. rewrite <- Hr in Hnew.
    now rewrite (Hcache _ _ eq_refl) in Hnew.
  - reflexivity.
  - intros r' o. unfold push, with_heap, with_n; cbn [heap].
    apply nth_error_extended.
Qed.

(** X13: when none of the four files exists, all four are still asked
    for and the resolved configuration is the defaults with the
    environment mapping merged in; with an empty environment mapping it
    is the defaults. *)
Theorem no_files_defaults_and_environment (w : world) :
  (forall path, In path (all_paths w) -> fs w path = Missing) ->
  exists st1,
    getSettings w (initial_state w) = (inr (Some 1), st1) /\
    reads st1 = all_paths w /\
    lookup 1 st1 =
      merge_into (merge_into [] (defaults w))
        (environment_parse w (process_env w)) /\
    (well_formed (defaults w) = true ->
     lookup 1 st1 =
       merge_into (defaults w) (environment_parse w (process_env w))) /\
    (well_formed (defaults w) = true ->
     environment_parse w (process_env w) = [] ->
     lookup 1 st1 = defaults w).
Proof.
  intros Hmissing.
  assert (Hread : forall path, In path (all_paths w) ->
                               read_source w path = inr []).
  { intros path Hin. unfold read_source. now rewrite (Hmissing path Hin). }
  assert (Hsrc : config_sources w =
                 inr [defaults w; replaceResinKeys []; [];
                      replaceResinKeys []; [];
                      environment_parse w (process_env w)]).
  { unfold config_sources.
    rewrite !Hread; [reflexivity | | | |]; cbn [all_paths In]; tauto. }
  destruct (getSettings_first_ok w _ Hsrc) as (st1 & E & Hs).
  exists st1. split; [exact E|].
  destruct Hs as (_ & Hr & _ & _ & _ & Hcache).
  rewrite (nth_error_lookup _ _ _ (Hcache _ _ eq_refl)).
  split; [exact Hr|]. split; [reflexivity|].
  assert (Hd : well_formed (defaults w) = true ->
               merge_into [] (defaults w) = defaults w).
  { intros Hwf. rewrite merge_into_fresh; [reflexivity | exact Hwf |].
    intros k _ []. }
  split.
  - intros Hwf. unfold merge_all. cbn [fold_left].
    change (replaceResinKeys []) with (@nil (string * value)).
    cbn [merge_into fold_left]. now rewrite (Hd Hwf).
  - intros Hwf Henv. unfold merge_all. cbn [fold_left].
    change (replaceResinKeys []) with (@nil (string * value)).
    rewrite Henv. cbn [merge_into fold_left]. now apply Hd.
Qed.

Lemma no_files_defaults_and_environment_witness :
  exists st1,
    getSettings Sample.bare (initial_state Sample.bare) = (inr (Some 1), st1) /\
    reads st1 = all_paths Sample.bare /\
    lookup 1 st1 =
      merge_into (merge_into [] Sample.sample_defaults)
        [("dataDirectory", VStr "/opt/cache/balena")].
Proof.
  destruct (no_files_defaults_and_environment Sample.bare (fun _ _ => eq_refl))
    as (st1 & E & Hr & Hl & _).
  exists st1. split; [exact E | split; [exact Hr | exact Hl]].
Defined.

(** X14: after the first call, whatever its outcome, [getSettings] is
    spent: it throws nothing, reads no file, runs no merge, changes no
    object and hands out what it holds. *)
Theorem getSettings_after_first_call
    (w : world) (c : call) (cs : list call) :
  let st := snd (run_calls w (c :: cs) (initial_state w)) in
  exists st',
    getSettings w st = (inr (once_result st), st') /\
    heap st' = heap st /\
    reads st' = reads st /\
    runs st' = runs st /\
    once_result st' = once_result st.
Proof.
  intros st. destruct (run_calls_first w c cs) as [cache Hs]. fold st in Hs.
  destruct Hs as (Hn & _). rewrite (getSettings_settled w _ Hn).
  eexists. split; [reflexivity|]. now repeat split.
Qed.

(** X15: it does not matter which accessor makes the first call, nor for
    which name: the files read, the mapping kept by [getSettings] and its
    content are the same, and when the merge fails the first call throws
    the error of the merge, whichever accessor made it. *)
Theorem first_call_trigger_irrelevant (w : world) (c1 c2 : call) :
  let s1 := snd (run_call w c1 (initial_state w)) in
  let s2 := snd (run_call w c2 (initial_state w)) in
  reads s1 = reads s2 /\
  runs s1 = runs s2 /\
  once_result s1 = once_result s2 /\
  (forall r, once_result s1 = Some r -> lookup r s1 = lookup r s2) /\
  (forall e st,
      getSettings w (initial_state w) = (inl e, st) ->
      run_call w c1 (initial_state w) = (Thrown e, st) /\
      run_call w c2 (initial_state w) = (Thrown e, st)).
Proof.
  assert (Hthrow : forall c e st,
             getSettings w (initial_state w) = (inl e, st) ->
             run_call w c (initial_state w) = (Thrown e, st)).
  { intros c e st E.
    destruct c; cbn [run_call]; unfold get, getAll; unfold bind at 1;
      now rewrite E. }
  cbv zeta.
  assert (Hsame :
            reads (snd (run_call w c1 (initial_state w))) =
              reads (snd (run_call w c2 (initial_state w))) /\
            runs (snd (run_call w c1 (initial_state w))) =
              runs (snd (run_call w c2 (initial_state w))) /\
            once_result (snd (run_call w c1 (initial_state w))) =
              once_result (snd (run_call w c2 (initial_state w))) /\
            (forall r,
                once_result (snd (run_call w c1 (initial_state w))) = Some r ->
                lookup r (snd (run_call w c1 (initial_state w))) =
                lookup r (snd (run_call w c2 (initial_state w))))).
  { pose proof (first_call w c1) as H1. pose proof (first_call w c2) as H2.
    destruct (config_sources w) as [e0|sources].
    - destruct H1 as (s1 & -> & _ & Hr1 & Hn1 & Hc1 & _).
      destruct H2 as (s2 & -> & _ & Hr2 & Hn2 & Hc2 & _).
      cbn [fst snd]. repeat split; try congruence.
      intros r Hr. rewrite Hc1 in Hr. discriminate Hr.
    - destruct H1 as (o1 & s1 & -> & (_ & Hr1 & Hn1 & Hc1 & _ & Hk1) & Ha1).
      destruct H2 as (o2 & s2 & -> & (_ & Hr2 & Hn2 & Hc2 & _ & Hk2) & Ha2).
      cbn [fst snd]. repeat split; try congruence.
      intros r Hr. rewrite Hc1 in Hr. injection Hr as <-. cbn [fst].
      now rewrite (nth_error_lookup _ _ _ (Hk1 _ _ eq_refl)),
        (nth_error_lookup _ _ _ (Hk2 _ _ eq_refl)). }
  destruct Hsame as (Hreads & Hruns & Hres & Hlook).
  split; [exact Hreads|]. split; [exact Hruns|]. split; [exact Hres|].
  split; [exact Hlook|].
  intros e st E. split; now apply Hthrow.
Qed.
